(** * cidrx: the docker-compose generator

    A shallow embedding of [generate-docker-compose.py] and the properties
    of the topology it expands.

    The script builds three Python dictionaries ([services], [networks],
    [volumes]) from the table [RANGES], puts them in one dictionary and
    hands it to [yaml.dump].  Python dictionaries keep insertion order and
    the dump is made with [sort_keys=False], so dictionaries are modelled
    as association lists in insertion order. *)

From Stdlib Require Import ZArith List String Ascii Bool Lia.
From Stdlib Require Import DecimalString DecimalZ DecimalPos.
From Stdlib Require Import Floats.PrimFloat.
Import ListNotations.

#[local] Open Scope string_scope.
#[local] Open Scope Z_scope.
#[local] Set Warnings "-inexact-float,-register-all".

(** ** Python values and primitives *)

Module Py.

(** The values the script builds: strings, floats, lists and (ordered)
    dictionaries with string keys. *)
Inductive pyval : Type :=
| PStr (s : string)
| PFloat (x : float)
| PList (l : list pyval)
| PDict (d : list (string * pyval)).

Definition dict : Type := list (string * pyval).

(** [d[k]] as an expression; [None] stands for [KeyError]. *)
Fixpoint dict_get {V : Type} (d : list (string * V)) (k : string) : option V :=
  match d with
  | [] => None
  | (k', v') :: r => if String.eqb k' k then Some v' else dict_get r k
  end.

(** [d[k] = v]: an existing key keeps its place and gets the new value, a
    new key goes to the end. *)
Fixpoint dict_set {V : Type} (d : list (string * V)) (k : string) (v : V)
  : list (string * V) :=
  match d with
  | [] => [(k, v)]
  | (k', v') :: r =>
      if String.eqb k' k then (k', v) :: r else (k', v') :: dict_set r k v
  end.

Definition keys {V : Type} (d : list (string * V)) : list string := map fst d.

(** [len(d)], a Python int. *)
Definition len {A : Type} (l : list A) : Z := Z.of_nat (List.length l).

(** [str(n)] and the [{n}] of an f-string, for an int. *)
Definition str (n : Z) : string := NilZero.string_of_int (Z.to_int n).

(** [range(a, b)]: [a, a+1, ..., b-1], empty when [b <= a]. *)
Definition range (a b : Z) : list Z :=
  map (fun k => a + Z.of_nat k) (seq 0 (Z.to_nat (b - a))).

(** [enumerate(l)], the index kept as a natural number. *)
Definition enumerate {A : Type} (l : list A) : list (nat * A) :=
  combine (seq 0 (List.length l)) l.

(** The part of [s] before its last [c], when [s] contains [c]. *)
Fixpoint before_last (c : ascii) (s : string) : option string :=
  match s with
  | EmptyString => None
  | String a r =>
      match before_last c r with
      | Some h => Some (String a h)
      | None => if Ascii.eqb a c then Some EmptyString else None
      end
  end.

(** [s.rsplit(c, 1)[0]]: the part before the last [c], the whole string
    when there is no [c]. *)
Definition rsplit1_head (c : ascii) (s : string) : string :=
  match before_last c s with
  | Some h => h
  | None => s
  end.

(** Every character of [s] satisfies [P]. *)
Fixpoint all_chars (P : ascii -> bool) (s : string) : bool :=
  match s with
  | EmptyString => true
  | String a r => P a && all_chars P r
  end.

(** [c not in s] *)
Definition lacks (c : ascii) (s : string) : bool :=
  all_chars (fun a => negb (Ascii.eqb a c)) s.

Definition digit (a : ascii) : bool :=
  match a with
  | "0" | "1" | "2" | "3" | "4" | "5" | "6" | "7" | "8" | "9" => true
  | _ => false
  end%char.

(** [sep.join(parts)] *)
Fixpoint join (sep : string) (parts : list string) : string :=
  match parts with
  | [] => EmptyString
  | [p] => p
  | p :: rest => p ++ sep ++ join sep rest
  end.

(** Field access on a value: [v[k]] when [v] is a dictionary. *)
Definition get (v : pyval) (k : string) : option pyval :=
  match v with
  | PDict d => dict_get d k
  | _ => None
  end.

End Py.
Import Py.

(** ** The script *)

(** One entry of [RANGES]: (subnet, client count, interval). *)
Definition SegmentSpec : Type := string * Z * float.

Definition RANGES : list SegmentSpec :=
  [ ("172.16.1.0/24", 4, 0.1%float);
    ("172.16.2.0/24", 2, 0.1%float);
    ("172.16.3.0/24", 5, 0.1%float);
    ("172.16.16.0/24", 33, 0.07%float) ].

Definition build_ref (context : string) : pyval :=
  PDict [("context", PStr context); ("dockerfile", PStr "Dockerfile")].

Definition PROXY_BUILD : pyval := build_ref "./proxy".
Definition CLIENT_BUILD : pyval := build_ref "./client".
Definition FILEBEAT_BUILD : pyval := build_ref "./filebeat".
Definition CIDRX_BUILD : pyval := build_ref "./cidrx".

Definition TARGET_URL : string := "http://proxy:80/".
Definition OUTPUT_FILE : string := "docker-compose.yml".

(** [f'net{i+1}'] *)
Definition net_name (i : nat) : string := "net" ++ str (Z.of_nat i + 1).

(** [f'client{i+1}_{j}'] *)
Definition client_name (i : nat) (j : Z) : string :=
  "client" ++ str (Z.of_nat i + 1) ++ "_" ++ str j.

(** [{f'net{i+1}': {} for i in range(len(RANGES))}] *)
Definition proxy_nets (ranges : list SegmentSpec) : dict :=
  fold_left (fun d i => dict_set d (net_name i) (PDict []))
            (seq 0 (List.length ranges)) [].

Definition proxy_service (nets : dict) : pyval :=
  PDict [ ("build", PROXY_BUILD);
          ("container_name", PStr "proxy");
          ("restart", PStr "unless-stopped");
          ("ports", PList [PStr "80"]);
          ("volumes", PList [PStr "/tmp:/var/log/nginx:rw"]);
          ("networks", PDict nets) ].

Definition cidrx_service (nets : dict) : pyval :=
  PDict [ ("build", CIDRX_BUILD);
          ("container_name", PStr "cidrx");
          ("restart", PStr "unless-stopped");
          ("ports", PList [PStr "9000:9000"]);
          ("networks", PDict nets) ].

Definition filebeat_service (nets : dict) : pyval :=
  PDict [ ("build", FILEBEAT_BUILD);
          ("container_name", PStr "filebeat");
          ("user", PStr "root");
          ("depends_on", PList [PStr "proxy"; PStr "cidrx"]);
          ("restart", PStr "unless-stopped");
          ("networks", PDict nets);
          ("volumes", PList [ PStr "/tmp:/var/log/nginx:ro";
                              PStr "filebeat_data:/usr/share/filebeat/data" ]);
          ("environment", PDict [ ("INGESTOR_HOST", PStr "cidrx:9000");
                                  ("PROXY_CONTAINER_NAME", PStr "proxy") ]) ].

(** The services dictionary as it stands before the client loop. *)
Definition infra_services (ranges : list SegmentSpec) : dict :=
  let nets := proxy_nets ranges in
  let services := dict_set [] "proxy" (proxy_service nets) in
  let services := dict_set services "cidrx" (cidrx_service nets) in
  dict_set services "filebeat" (filebeat_service nets).

Definition network_def (subnet : string) : pyval :=
  PDict [ ("driver", PStr "bridge");
          ("ipam", PDict [ ("driver", PStr "default");
                           ("config", PList [PDict [("subnet", PStr subnet)]]) ]) ].

(** [base = subnet.rsplit('.', 1)[0]] *)
Definition base (subnet : string) : string := rsplit1_head "." subnet.

(** [f"{base}.{31+j}"] *)
Definition ipv4_address (subnet : string) (j : Z) : string :=
  base subnet ++ "." ++ str (31 + j).

Definition client_service (name net : string) (address : string)
           (interval : float) : pyval :=
  PDict [ ("build", CLIENT_BUILD);
          ("container_name", PStr name);
          ("depends_on", PList [PStr "proxy"]);
          ("networks", PDict [(net, PDict [("ipv4_address", PStr address)])]);
          ("environment", PDict [ ("TARGET_URL", PStr TARGET_URL);
                                  ("INTERVAL", PFloat interval) ]) ].

(** The inner loop, [for j in range(1, count+1)], on the services. *)
Definition add_clients (i : nat) (spec : SegmentSpec) (services : dict) : dict :=
  let '(subnet, count, interval) := spec in
  fold_left
    (fun svcs j =>
       dict_set svcs (client_name i j)
                (client_service (client_name i j) (net_name i)
                                (ipv4_address subnet j) interval))
    (range 1 (count + 1)) services.

(** One turn of the outer loop on the pair (services, networks). *)
Definition segment_step (st : dict * dict) (entry : nat * SegmentSpec)
  : dict * dict :=
  let '(services, networks) := st in
  let '(i, spec) := entry in
  let networks := dict_set networks (net_name i) (network_def (fst (fst spec))) in
  (add_clients i spec services, networks).

(** The three dictionaries when the loops are over. *)
Definition expand (ranges : list SegmentSpec) : dict * dict * dict :=
  let volumes := [("filebeat_data", PDict [])] in
  let '(services, networks) :=
    fold_left segment_step (enumerate ranges) (infra_services ranges, []) in
  (services, networks, volumes).

Definition services_of (ranges : list SegmentSpec) : dict :=
  fst (fst (expand ranges)).
Definition networks_of (ranges : list SegmentSpec) : dict :=
  snd (fst (expand ranges)).
Definition volumes_of (ranges : list SegmentSpec) : dict :=
  snd (expand ranges).

(** [compose], the dictionary handed to the serializer. *)
Definition compose (ranges : list SegmentSpec) : pyval :=
  PDict [ ("services", PDict (services_of ranges));
          ("networks", PDict (networks_of ranges));
          ("volumes", PDict (volumes_of ranges)) ].

(** *** Running the script *)

(** PyYAML is not part of the repository: what it writes is kept as the
    call that wrote it.  The value is given as a tree; that several entries
    hold one and the same object ([proxy_nets], the build references), which
    the dumper shows as anchors, is the same in every run and is not
    recorded.  A dump that raises before its end leaves the first bytes of
    that text in the file. *)
Inductive FileContent : Type :=
| yaml_dump (data : pyval) (sort_keys : bool)
| yaml_dump_cut (data : pyval) (sort_keys : bool) (bytes : nat).

(** What the script can touch, and what the system does to it: the files,
    the paths [open(_, 'w')] refuses, the number of bytes after which a
    write to an opened file raises (if it does), whether writing to the
    standard output raises, and the lines printed. *)
Record World : Type := mkWorld {
  files : list (string * FileContent);
  unwritable : list string;
  write_fault : option nat;
  stdout_fault : bool;
  stdout : list string
}.

(** How a run can end.  [OSError] is what [open], a write or [print]
    raises.  [InvalidSpec] and [AddressSpaceExhausted] are the failures the
    design documents name; the script has no [raise] of its own. *)
Inductive exn : Type := OSError | InvalidSpec | AddressSpaceExhausted.

Inductive outcome : Type :=
| Returned (w : World)
| Raised (e : exn) (w : World).

Definition can_open (w : World) (path : string) : bool :=
  negb (existsb (String.eqb path) (unwritable w)).

(** The world with [content] as the content of [path]: [open(path, 'w')]
    drops what the file held. *)
Definition with_file (w : World) (path : string) (content : FileContent)
  : World :=
  {| files := dict_set (files w) path content;
     unwritable := unwritable w;
     write_fault := write_fault w;
     stdout_fault := stdout_fault w;
     stdout := stdout w |}.

(** The world after [print(line)]. *)
Definition printed (w : World) (line : string) : World :=
  {| files := files w;
     unwritable := unwritable w;
     write_fault := write_fault w;
     stdout_fault := stdout_fault w;
     stdout := stdout w ++ [line] |}.

Definition summary (services networks : dict) : string :=
  "Generated " ++ OUTPUT_FILE ++ " with " ++ str (len services - 3)
    ++ " clients on " ++ str (len networks) ++ " networks.".

(** [generate_compose()], with the table [RANGES] as its argument.  The
    dictionaries are built first; then the file is opened, which empties
    it, the document is dumped into it, the file is closed, and the summary
    is printed.  Each of the three steps can raise [OSError]; a dump that
    raises leaves the file cut short and nothing is printed. *)
Definition generate_compose (ranges : list SegmentSpec) (w : World) : outcome :=
  let '(services, networks, volumes) := expand ranges in
  let compose := PDict [ ("services", PDict services);
                         ("networks", PDict networks);
                         ("volumes", PDict volumes) ] in
  if can_open w OUTPUT_FILE then
    match write_fault w with
    | Some bytes =>
        Raised OSError (with_file w OUTPUT_FILE (yaml_dump_cut compose false bytes))
    | None =>
        let w := with_file w OUTPUT_FILE (yaml_dump compose false) in
        if stdout_fault w then Raised OSError w
        else Returned (printed w (summary services networks))
    end
  else Raised OSError w.

(** A system that raises nothing. *)
Definition undisturbed (w : World) : bool :=
  can_open w OUTPUT_FILE
  && match write_fault w with None => true | Some _ => false end
  && negb (stdout_fault w).

Definition empty_world : World :=
  {| files := []; unwritable := []; write_fault := None;
     stdout_fault := false; stdout := [] |}.

(** *** Reading the document *)

(** What the script wrote to [OUTPUT_FILE], if it returned. *)
Definition written (o : outcome) : option FileContent :=
  match o with
  | Returned w => dict_get (files w) OUTPUT_FILE
  | Raised _ _ => None
  end.

Definition as_str (v : pyval) : option string :=
  match v with PStr s => Some s | _ => None end.

Definition strings_of (l : list pyval) : list string :=
  flat_map (fun v => match v with PStr s => [s] | _ => [] end) l.

(** The networks a service is a member of: the keys of its [networks]. *)
Definition member_networks (svc : pyval) : list string :=
  match get svc "networks" with
  | Some (PDict d) => keys d
  | _ => []
  end.

(** The services a service depends on: its [depends_on] list, empty when
    the key is absent. *)
Definition dependencies (svc : pyval) : list string :=
  match get svc "depends_on" with
  | Some (PList l) => strings_of l
  | _ => []
  end.

(** [services[name]['networks'][net]['ipv4_address']] *)
Definition address_in (services : dict) (name net : string) : option string :=
  match dict_get services name with
  | Some svc =>
      match get svc "networks" with
      | Some nets =>
          match get nets net with
          | Some attachment =>
              match get attachment "ipv4_address" with
              | Some v => as_str v
              | None => None
              end
          | None => None
          end
      | None => None
      end
  | None => None
  end.

(** The address of the client in slot [j] of segment [i] (0-based). *)
Definition client_address (services : dict) (i : nat) (j : Z) : option string :=
  address_in services (client_name i j) (net_name i).

(** [networks[net]['ipam']['config'][0]['subnet']] *)
Definition pool_of (networks : dict) (net : string) : option string :=
  match dict_get networks net with
  | Some n =>
      match get n "ipam" with
      | Some ipam =>
          match get ipam "config" with
          | Some (PList (c :: _)) =>
              match get c "subnet" with
              | Some v => as_str v
              | None => None
              end
          | _ => None
          end
      | None => None
      end
  | None => None
  end.

(** [sum(count for (_, count, _) in ranges)] *)
Definition total_hosts (ranges : list SegmentSpec) : Z :=
  fold_right Z.add 0 (map (fun spec => snd (fst spec)) ranges).

(** The turns of the inner loop over all segments: a count of zero or
    less gives none. *)
Definition client_total (ranges : list SegmentSpec) : Z :=
  fold_right Z.add 0 (map (fun spec => Z.max 0 (snd (fst spec))) ranges).

(** Two specs that differ at most in what follows the last dot of their
    ranges. *)
Definition same_up_to_last_dot (s1 s2 : SegmentSpec) : Prop :=
  base (fst (fst s1)) = base (fst (fst s2)) /\
  snd (fst s1) = snd (fst s2) /\
  snd s1 = snd s2.

(** The client names of one segment, in slot order. *)
Definition segment_clients (entry : nat * SegmentSpec) : list string :=
  map (client_name (fst entry)) (range 1 (snd (fst (snd entry)) + 1)).

(** ** Ranges and addresses as the design documents read them

    The script treats a range as text.  The design documents speak of a
    range's network base, its prefix length and of an address lying within
    a range; this module gives those words their usual meaning for dotted
    IPv4 text, so that the script's addresses can be compared with them. *)

Module Cidr.

(** [s.split(c)] *)
Fixpoint split (c : ascii) (s : string) : list string :=
  match s with
  | EmptyString => [EmptyString]
  | String a r =>
      if Ascii.eqb a c then EmptyString :: split c r
      else match split c r with
           | h :: t => String a h :: t
           | [] => [String a EmptyString]
           end
  end.

(** A non-empty run of decimal digits as a number. *)
Definition parse_nat (s : string) : option Z :=
  option_map Z.of_uint (NilZero.uint_of_string s).

Definition parse_octet (s : string) : option Z :=
  match parse_nat s with
  | Some v => if v <=? 255 then Some v else None
  | None => None
  end.

(** The 32-bit value of a dotted quad. *)
Definition parse_ipv4 (s : string) : option Z :=
  match map parse_octet (split "." s) with
  | [Some a; Some b; Some c; Some d] =>
      Some (((a * 256 + b) * 256 + c) * 256 + d)
  | _ => None
  end.

(** Address and prefix length of [a.b.c.d/p]. *)
Definition parse_cidr (s : string) : option (Z * Z) :=
  match split "/" s with
  | [addr; plen] =>
      match parse_ipv4 addr, parse_nat plen with
      | Some ip, Some p => if p <=? 32 then Some (ip, p) else None
      | _, _ => None
      end
  | _ => None
  end.

(** The address with its host bits cleared. *)
Definition network_base (ip p : Z) : Z :=
  Z.shiftl (Z.shiftr ip (32 - p)) (32 - p).

(** A range is well formed when its address is its own network base. *)
Definition well_formed (ip p : Z) : bool := network_base ip p =? ip.

(** [addr] has the same leading [p] bits as [ip]. *)
Definition contains (ip p addr : Z) : bool :=
  Z.shiftr addr (32 - p) =? Z.shiftr ip (32 - p).

(** The address text [addr] lies within the range text [range]. *)
Definition in_range (range addr : string) : bool :=
  match parse_cidr range, parse_ipv4 addr with
  | Some (ip, p), Some a => contains ip p a
  | _, _ => false
  end.

(** The part of [s] after its last [c] ([s.rsplit(c, 1)[-1]]). *)
Fixpoint after_last (c : ascii) (s : string) : string :=
  match s with
  | EmptyString => EmptyString
  | String a r =>
      match before_last c r with
      | Some _ => after_last c r
      | None => if Ascii.eqb a c then r else String a r
      end
  end.

(** The number an address ends with. *)
Definition last_component (addr : string) : option Z :=
  parse_nat (after_last "." addr).

End Cidr.

(** ** Failure and ranges as the design documents state them

    The statements below are the ones the design documents make about
    failing runs and about addresses and ranges; they are compared with
    the script further down. *)

(** The run ends with the exception [e]. *)
Definition fails_with (e : exn) (o : outcome) : Prop :=
  exists w, o = Raised e w.

(** The hosts a prefix length leaves room for: 254 for a /24. *)
Definition host_space (p : Z) : Z := 2 ^ (32 - p) - 2.

(** The segment asks for more than its range holds above the reserved
    offset: [31 + hostCount] exceeds the host space. *)
Definition exhausts (spec : SegmentSpec) : bool :=
  let '(subnet, count, _) := spec in
  match Cidr.parse_cidr subnet with
  | Some (_, p) => host_space p <? 31 + count
  | None => false
  end.

(** The spec has a malformed range or a non-positive host count. *)
Definition invalid (spec : SegmentSpec) : bool :=
  let '(subnet, count, _) := spec in
  match Cidr.parse_cidr subnet with
  | Some _ => count <=? 0
  | None => true
  end.

(** "Allocation fails with AddressSpaceExhausted when a segment does not
    fit its range." *)
Definition exhaustion_is_refused (ranges : list SegmentSpec) (w : World)
  : Prop :=
  existsb exhausts ranges = true ->
  fails_with AddressSpaceExhausted (generate_compose ranges w).

(** "An invalid spec fails the run with InvalidSpec and nothing is
    written." *)
Definition invalid_is_refused (ranges : list SegmentSpec) (w : World)
  : Prop :=
  existsb invalid ranges = true ->
  generate_compose ranges w = Raised InvalidSpec w.

(** "Every client address lies within the declared range of its
    segment." *)
Definition addresses_within_range (ranges : list SegmentSpec) : Prop :=
  forall i subnet count interval j,
    nth_error ranges i = Some (subnet, count, interval) ->
    1 <= j <= count ->
    exists a, client_address (services_of ranges) i j = Some a /\
              Cidr.in_range subnet a = true.

(** "The address of slot [j] is the network base plus 31 plus [j]." *)
Definition address_is_base_plus_offset (subnet : string) (j : Z) : Prop :=
  forall ip p,
    Cidr.parse_cidr subnet = Some (ip, p) ->
    Cidr.parse_ipv4 (ipv4_address subnet j)
    = Some (Cidr.network_base ip p + 31 + j).

(** ** The loops in closed form *)

(** [enumerate] from a starting index. *)
Definition indexed {A : Type} (k : nat) (l : list A) : list (nat * A) :=
  combine (seq k (List.length l)) l.

(** What one turn of the inner loop adds to [services]. *)
Definition client_entry (i : nat) (subnet : string) (interval : float) (j : Z)
  : string * pyval :=
  (client_name i j,
   client_service (client_name i j) (net_name i) (ipv4_address subnet j) interval).

(** What the inner loop adds for one segment. *)
Definition client_entries (entry : nat * SegmentSpec) : dict :=
  let '(i, (subnet, count, interval)) := entry in
  map (client_entry i subnet interval) (range 1 (count + 1)).

(** What one turn of the outer loop adds to [networks]. *)
Definition network_entry (entry : nat * SegmentSpec) : string * pyval :=
  (net_name (fst entry), network_def (fst (fst (snd entry)))).

(** The memberships of the proxy, one per segment. *)
Definition net_entries (n : nat) : dict :=
  map (fun i => (net_name i, PDict [])) (seq 0 n).

Definition infra_entries (nets : dict) : dict :=
  [ ("proxy", proxy_service nets);
    ("cidrx", cidrx_service nets);
    ("filebeat", filebeat_service nets) ].

Definition infra_names : list string := ["proxy"; "cidrx"; "filebeat"].

(** ** The script on its own table *)

Section Table.

#[local] Open Scope list_scope.

Example str_values :
  map str [0; 1; 32; 255; -5] = ["0"; "1"; "32"; "255"; "-5"]%string.
Proof. reflexivity. Qed.

Example rsplit1_head_values :
  map (rsplit1_head ".") ["172.16.16.0/24"; "nodots"; "a.b"; ".x"; "x."]%string
  = ["172.16.16"; "nodots"; "a"; ""; "x"]%string.
Proof. reflexivity. Qed.

Example range_values :
  range 1 (4 + 1) = [1; 2; 3; 4] /\ range 1 (0 + 1) = [] /\
  range 1 (-3 + 1) = [].
Proof. repeat split. Qed.

Example RANGES_networks :
  keys (networks_of RANGES) = ["net1"; "net2"; "net3"; "net4"]%string /\
  pool_of (networks_of RANGES) "net4" = Some "172.16.16.0/24"%string.
Proof. vm_compute. split; reflexivity. Qed.

Example RANGES_clients :
  address_in (services_of RANGES) "client1_1" "net1"
  = Some "172.16.1.32"%string /\
  address_in (services_of RANGES) "client4_33" "net4"
  = Some "172.16.16.64"%string /\
  address_in (services_of RANGES) "client4_34" "net4" = None.
Proof. vm_compute. repeat split; reflexivity. Qed.

Example RANGES_summary :
  match generate_compose RANGES empty_world with
  | Returned w =>
      stdout w
      = ["Generated docker-compose.yml with 44 clients on 4 networks."%string]
  | Raised _ _ => False
  end.
Proof. vm_compute. reflexivity. Qed.

Example unwritable_output :
  let w := {| files := []; unwritable := [OUTPUT_FILE]; write_fault := None;
              stdout_fault := false; stdout := [] |} in
  generate_compose RANGES w = Raised OSError w.
Proof. reflexivity. Qed.

Example dump_cut_short :
  let w := {| files := [(OUTPUT_FILE, yaml_dump (PDict []) false)];
              unwritable := []; write_fault := Some 200%nat;
              stdout_fault := false; stdout := [] |} in
  match generate_compose RANGES w with
  | Raised OSError w' =>
      files w' = [(OUTPUT_FILE, yaml_dump_cut (compose RANGES) false 200)] /\
      stdout w' = []
  | _ => False
  end.
Proof. vm_compute. split; reflexivity. Qed.

End Table.

(** ** Facts about strings and decimal text *)

Section Strings.

Lemma append_assoc (s t u : string) : (s ++ t) ++ u = s ++ (t ++ u).
Proof. induction s as [|a s IH]; simpl; [reflexivity | now rewrite IH]. Qed.

Lemma append_nil_r (s : string) : s ++ "" = s.
Proof. induction s as [|a s IH]; simpl; [reflexivity | now rewrite IH]. Qed.

Lemma append_cancel_l (s x y : string) : s ++ x = s ++ y -> x = y.
Proof.
  induction s as [|a s IH]; simpl; intros H; [exact H |].
  injection H as H. now apply IH.
Qed.

Lemma all_chars_app (P : ascii -> bool) (s t : string) :
  all_chars P (s ++ t) = all_chars P s && all_chars P t.
Proof.
  induction s as [|a s IH]; simpl; [reflexivity |].
  now rewrite IH, andb_assoc.
Qed.

Lemma all_chars_impl (P Q : ascii -> bool) (s : string) :
  (forall a, P a = true -> Q a = true) ->
  all_chars P s = true -> all_chars Q s = true.
Proof.
  intros HPQ. induction s as [|a s IH]; simpl; [reflexivity |].
  intros H. apply andb_true_iff in H as [Ha Hs].
  apply andb_true_iff. split; auto.
Qed.

Lemma digit_not (c : ascii) :
  digit c = false -> forall a, digit a = true -> negb (Ascii.eqb a c) = true.
Proof.
  intros Hc a Ha. apply negb_true_iff, Ascii.eqb_neq. intros ->. congruence.
Qed.

Lemma digits_lack (c : ascii) (s : string) :
  digit c = false -> all_chars digit s = true -> lacks c s = true.
Proof.
  intros Hc. apply all_chars_impl. now apply digit_not.
Qed.

(** *** [rsplit] *)

Lemma before_last_lacks (c : ascii) (t : string) :
  lacks c t = true -> before_last c t = None.
Proof.
  induction t as [|a t IH]; simpl; [reflexivity |].
  intros H. apply andb_true_iff in H as [Ha Ht].
  rewrite (IH Ht). apply negb_true_iff in Ha. now rewrite Ha.
Qed.

Lemma before_last_app (c : ascii) (s t : string) :
  lacks c t = true -> before_last c (s ++ String c t) = Some s.
Proof.
  intros Ht. induction s as [|a s IH]; simpl.
  - now rewrite (before_last_lacks c t Ht), Ascii.eqb_refl.
  - now rewrite IH.
Qed.

Lemma rsplit1_head_app (c : ascii) (s t : string) :
  lacks c t = true -> rsplit1_head c (s ++ String c t) = s.
Proof.
  intros Ht. unfold rsplit1_head. now rewrite before_last_app.
Qed.

Lemma after_last_lacks (c : ascii) (t : string) :
  lacks c t = true -> Cidr.after_last c t = t.
Proof.
  induction t as [|a t IH]; simpl; [reflexivity |].
  intros H. apply andb_true_iff in H as [Ha Ht].
  rewrite (before_last_lacks c t Ht). apply negb_true_iff in Ha.
  now rewrite Ha.
Qed.

Lemma after_last_app (c : ascii) (s t : string) :
  lacks c t = true -> Cidr.after_last c (s ++ String c t) = t.
Proof.
  intros Ht. induction s as [|a s IH]; simpl.
  - now rewrite (before_last_lacks c t Ht), Ascii.eqb_refl.
  - now rewrite before_last_app.
Qed.

(** Two texts cut at a separator that occurs in neither head agree part
    by part. *)
Lemma append_sep_inj (c : ascii) (s1 s2 t1 t2 : string) :
  lacks c s1 = true -> lacks c s2 = true ->
  s1 ++ String c t1 = s2 ++ String c t2 -> s1 = s2 /\ t1 = t2.
Proof.
  revert s2. induction s1 as [|a s1 IH]; intros [|b s2]; simpl; intros H1 H2 E.
  - injection E as E. now split.
  - injection E as Eb _. apply andb_true_iff in H2 as [Hb _].
    apply negb_true_iff, Ascii.eqb_neq in Hb. congruence.
  - injection E as Ea _. apply andb_true_iff in H1 as [Ha _].
    apply negb_true_iff, Ascii.eqb_neq in Ha. congruence.
  - injection E as Eab E. apply andb_true_iff in H1 as [_ H1].
    apply andb_true_iff in H2 as [_ H2].
    destruct (IH s2 H1 H2 E) as [-> ->]. now subst.
Qed.

(** *** [str] *)

Lemma uint_digits (d : Decimal.uint) :
  all_chars digit (NilEmpty.string_of_uint d) = true.
Proof. induction d; simpl; auto. Qed.

Lemma uint_digits0 (d : Decimal.uint) :
  all_chars digit (NilZero.string_of_uint d) = true.
Proof. destruct d; try reflexivity; apply (uint_digits (_ _)). Qed.

Lemma str_digits (n : Z) : 0 <= n -> all_chars digit (str n) = true.
Proof.
  intros Hn. unfold str. destruct n as [|p|p]; simpl.
  - reflexivity.
  - apply uint_digits0.
  - lia.
Qed.

Lemma str_lacks (c : ascii) (n : Z) :
  digit c = false -> 0 <= n -> lacks c (str n) = true.
Proof. intros Hc Hn. apply digits_lack; [exact Hc | now apply str_digits]. Qed.

Lemma to_int_proper (n : Z) :
  Z.to_int n <> Decimal.Pos Decimal.Nil /\ Z.to_int n <> Decimal.Neg Decimal.Nil.
Proof.
  destruct n as [|p|p]; simpl; split; try discriminate;
    intros [= E]; now apply (Unsigned.to_uint_nonnil p).
Qed.

Lemma str_parse (n : Z) :
  NilZero.int_of_string (str n) = Some (Z.to_int n).
Proof.
  unfold str. destruct (to_int_proper n) as [H1 H2]. now apply NilZero.isi.
Qed.

Lemma str_inj (a b : Z) : str a = str b -> a = b.
Proof.
  intros E. apply DecimalZ.to_int_inj.
  assert (H : Some (Z.to_int a) = Some (Z.to_int b))
    by now rewrite <- !str_parse, E.
  now injection H.
Qed.

Lemma parse_nat_str (n : Z) : 0 <= n -> Cidr.parse_nat (str n) = Some n.
Proof.
  intros Hn. unfold Cidr.parse_nat, str.
  destruct n as [|p|p]; [reflexivity | | lia].
  simpl. rewrite NilZero.usu by apply Unsigned.to_uint_nonnil.
  simpl. f_equal. unfold Z.of_uint. now rewrite Unsigned.of_to.
Qed.

Lemma parse_nat_digits (s : string) (v : Z) :
  Cidr.parse_nat s = Some v -> all_chars digit s = true /\ 0 <= v.
Proof.
  unfold Cidr.parse_nat. destruct (NilZero.uint_of_string s) as [d|] eqn:E;
    [|discriminate].
  intros [= <-]. split.
  - apply NilZero.sus in E. rewrite <- E. apply uint_digits0.
  - unfold Z.of_uint. lia.
Qed.

End Strings.

(** ** Facts about dictionaries *)

Section Dicts.

#[local] Open Scope list_scope.

Context {V : Type}.
Implicit Types d : list (string * V).

Lemma keys_app d d' : keys (d ++ d') = keys d ++ keys d'.
Proof. apply map_app. Qed.

Lemma dict_set_fresh d k v :
  ~ In k (keys d) -> dict_set d k v = d ++ [(k, v)].
Proof.
  induction d as [|[k' v'] d IH]; simpl; intros Hk; [reflexivity |].
  destruct (String.eqb_spec k' k) as [->|Hne]; [tauto |].
  rewrite IH; tauto.
Qed.

Lemma dict_get_None d k : ~ In k (keys d) -> dict_get d k = None.
Proof.
  induction d as [|[k' v'] d IH]; simpl; intros Hk; [reflexivity |].
  destruct (String.eqb_spec k' k) as [->|Hne]; [tauto |].
  apply IH; tauto.
Qed.

Lemma dict_get_In d k v :
  NoDup (keys d) -> In (k, v) d -> dict_get d k = Some v.
Proof.
  induction d as [|[k' v'] d IH]; simpl; intros Hnd Hin; [contradiction |].
  apply NoDup_cons_iff in Hnd as [Hk' Hnd].
  destruct Hin as [[= -> ->]|Hin].
  - now rewrite String.eqb_refl.
  - destruct (String.eqb_spec k' k) as [->|Hne]; [|now apply IH].
    exfalso. apply Hk'. change k with (fst (k, v)). now apply in_map.
Qed.

Lemma dict_get_Some d k v : dict_get d k = Some v -> In (k, v) d.
Proof.
  induction d as [|[k' v'] d IH]; simpl; [discriminate |].
  destruct (String.eqb_spec k' k) as [->|Hne].
  - intros [= ->]. now left.
  - intros H. right. now apply IH.
Qed.

Lemma dict_get_app_l d d' k v :
  dict_get d k = Some v -> dict_get (d ++ d') k = Some v.
Proof.
  induction d as [|[k' v'] d IH]; simpl; [discriminate |].
  destruct (String.eqb k' k); auto.
Qed.

(** A loop of assignments to keys that are new and pairwise distinct
    appends its entries in order. *)
Lemma fold_dict_set_fresh {A : Type} (f : A -> string) (g : A -> V)
      (l : list A) :
  forall d,
    NoDup (keys d ++ map f l) ->
    fold_left (fun acc x => dict_set acc (f x) (g x)) l d
    = d ++ map (fun x => (f x, g x)) l.
Proof.
  induction l as [|x l IH]; simpl; intros d Hnd.
  - now rewrite List.app_nil_r.
  - pose proof (NoDup_remove_2 _ _ _ Hnd) as Hx.
    rewrite dict_set_fresh by (intros Hin; apply Hx, in_or_app; now left).
    rewrite IH.
    + now rewrite <- List.app_assoc.
    + rewrite keys_app, <- List.app_assoc. exact Hnd.
Qed.

End Dicts.

Lemma NoDup_map_inj {A B : Type} (f : A -> B) (l : list A) :
  (forall x y, In x l -> In y l -> f x = f y -> x = y) ->
  NoDup l -> NoDup (map f l).
Proof.
  induction l as [|a l IH]; simpl; intros Hinj Hnd; [constructor |].
  apply NoDup_cons_iff in Hnd as [Ha Hnd].
  constructor.
  - intros Hin. apply in_map_iff in Hin as (x & Hx & Hxl).
    apply Ha. rewrite <- (Hinj x a); auto.
  - apply IH; auto.
Qed.

(** ** Names *)

Section Names.

#[local] Open Scope list_scope.

Lemma net_name_inj (i i' : nat) : net_name i = net_name i' -> i = i'.
Proof.
  unfold net_name. intros E. apply append_cancel_l, str_inj in E. lia.
Qed.

Lemma client_name_inj (i i' : nat) (j j' : Z) :
  client_name i j = client_name i' j' -> i = i' /\ j = j'.
Proof.
  unfold client_name. intros E. apply append_cancel_l in E.
  apply append_sep_inj in E as [Ei Ej];
    try (apply str_lacks; [reflexivity | lia]).
  apply str_inj in Ei, Ej. split; lia.
Qed.

Lemma client_name_not_infra (i : nat) (j : Z) :
  ~ In (client_name i j) infra_names.
Proof.
  unfold client_name, infra_names. simpl.
  intros [H|[H|[H|[]]]]; discriminate H.
Qed.

Lemma in_range_iff (a b j : Z) : In j (range a b) <-> a <= j < b.
Proof.
  unfold range. rewrite in_map_iff. split.
  - intros (k & <- & Hk). apply in_seq in Hk. lia.
  - intros H. exists (Z.to_nat (j - a)). split; [lia |].
    apply in_seq. lia.
Qed.

Lemma range_NoDup (a b : Z) : NoDup (range a b).
Proof.
  unfold range. apply NoDup_map_inj; [|apply seq_NoDup].
  intros x y _ _. lia.
Qed.

Lemma length_range (a b : Z) :
  List.length (range a b) = Z.to_nat (b - a).
Proof. unfold range. now rewrite length_map, length_seq. Qed.

Lemma indexed_cons {A : Type} (k : nat) (a : A) (l : list A) :
  indexed k (a :: l) = (k, a) :: indexed (S k) l.
Proof. reflexivity. Qed.

Lemma in_indexed {A : Type} (l : list A) :
  forall k i a, In (i, a) (indexed k l) <->
                (k <= i)%nat /\ nth_error l (i - k) = Some a.
Proof.
  induction l as [|x l IH]; intros k i a.
  - simpl. split; [contradiction |]. intros [_ H].
    destruct (i - k)%nat; discriminate.
  - rewrite indexed_cons. simpl. rewrite IH. split.
    + intros [[= <- <-]|[Hk Hn]].
      * split; [lia |]. now rewrite Nat.sub_diag.
      * split; [lia |]. replace (i - k)%nat with (S (i - S k)) by lia.
        exact Hn.
    + intros [Hk Hn]. destruct (Nat.eq_dec i k) as [->|Hne].
      * rewrite Nat.sub_diag in Hn. simpl in Hn. injection Hn as ->. now left.
      * right. split; [lia |].
        replace (i - k)%nat with (S (i - S k)) in Hn by lia. exact Hn.
Qed.

Lemma keys_client_entries (entry : nat * SegmentSpec) :
  keys (client_entries entry) = segment_clients entry.
Proof.
  destruct entry as [i [[subnet count] interval]].
  unfold client_entries, segment_clients, keys. simpl.
  now rewrite map_map.
Qed.

Lemma keys_flat_client_entries (l : list (nat * SegmentSpec)) :
  keys (flat_map client_entries l) = flat_map segment_clients l.
Proof.
  induction l as [|e l IH]; simpl; [reflexivity |].
  now rewrite keys_app, keys_client_entries, IH.
Qed.

Lemma in_segment_clients (x : string) (l : list SegmentSpec) (k : nat) :
  In x (flat_map segment_clients (indexed k l)) ->
  exists i j, (k <= i)%nat /\ x = client_name i j.
Proof.
  intros H. apply in_flat_map in H as ([i spec] & He & Hx).
  apply in_indexed in He as [Hk _].
  apply in_map_iff in Hx as (j & <- & _). now exists i, j.
Qed.

Lemma segment_clients_NoDup (l : list SegmentSpec) :
  forall k, NoDup (flat_map segment_clients (indexed k l)).
Proof.
  induction l as [|spec l IH]; intros k; [constructor |].
  rewrite indexed_cons. simpl. apply NoDup_app.
  - apply NoDup_map_inj; [|apply range_NoDup].
    intros x y _ _ E. now apply client_name_inj in E.
  - apply IH.
  - intros x Hx Hx'. apply in_map_iff in Hx as (j & <- & _).
    apply in_segment_clients in Hx' as (i & j' & Hi & E).
    apply client_name_inj in E. simpl in E. lia.
Qed.

Lemma service_keys_NoDup (l : list SegmentSpec) :
  NoDup (infra_names ++ flat_map segment_clients (indexed 0 l)).
Proof.
  apply NoDup_app.
  - unfold infra_names. repeat constructor; simpl; intuition discriminate.
  - apply segment_clients_NoDup.
  - intros x Hx Hx'. apply in_segment_clients in Hx' as (i & j & _ & ->).
    now apply client_name_not_infra in Hx.
Qed.

Lemma net_names_NoDup (k n : nat) : NoDup (map net_name (seq k n)).
Proof.
  apply NoDup_map_inj; [|apply seq_NoDup].
  intros x y _ _. apply net_name_inj.
Qed.

End Names.

(** ** The expansion in closed form *)

Section Expansion.

#[local] Open Scope list_scope.

Lemma proxy_nets_closed (ranges : list SegmentSpec) :
  proxy_nets ranges = net_entries (List.length ranges).
Proof.
  unfold proxy_nets, net_entries.
  rewrite (fold_dict_set_fresh net_name (fun _ => PDict [])); [reflexivity |].
  simpl. apply net_names_NoDup.
Qed.

Lemma infra_services_closed (ranges : list SegmentSpec) :
  infra_services ranges = infra_entries (net_entries (List.length ranges)).
Proof. unfold infra_services. now rewrite proxy_nets_closed. Qed.

Lemma add_clients_closed (i : nat) (spec : SegmentSpec) (services : dict) :
  NoDup (keys services ++ segment_clients (i, spec)) ->
  add_clients i spec services = services ++ client_entries (i, spec).
Proof.
  destruct spec as [[subnet count] interval]. intros Hnd.
  unfold add_clients, client_entries, client_entry.
  now rewrite (fold_dict_set_fresh (client_name i)).
Qed.

Lemma fold_segment_step (l : list SegmentSpec) :
  forall k services networks,
    NoDup (keys services ++ flat_map segment_clients (indexed k l)) ->
    NoDup (keys networks ++ map net_name (seq k (List.length l))) ->
    fold_left segment_step (indexed k l) (services, networks)
    = (services ++ flat_map client_entries (indexed k l),
       networks ++ map network_entry (indexed k l)).
Proof.
  induction l as [|spec l IH]; intros k services networks Hs Hn.
  - simpl. now rewrite !List.app_nil_r.
  - rewrite indexed_cons in *. simpl in Hs, Hn |- *.
    rewrite List.app_assoc in Hs.
    rewrite add_clients_closed by now apply NoDup_app_remove_r in Hs.
    rewrite dict_set_fresh.
    2:{ intros Hin. apply (NoDup_remove_2 _ _ _ Hn), in_or_app. now left. }
    rewrite IH.
    + now rewrite <- !List.app_assoc.
    + now rewrite keys_app, keys_client_entries.
    + rewrite keys_app, <- List.app_assoc. exact Hn.
Qed.

Lemma indexed_0 {A : Type} (l : list A) : indexed 0 l = enumerate l.
Proof. reflexivity. Qed.

Theorem expand_closed (ranges : list SegmentSpec) :
  expand ranges
  = (infra_entries (net_entries (List.length ranges))
       ++ flat_map client_entries (enumerate ranges),
     map network_entry (enumerate ranges),
     [("filebeat_data", PDict [])]).
Proof.
  unfold expand. rewrite infra_services_closed, <- indexed_0.
  rewrite fold_segment_step; [reflexivity | apply service_keys_NoDup |].
  simpl. apply net_names_NoDup.
Qed.

Lemma services_closed (ranges : list SegmentSpec) :
  services_of ranges
  = infra_entries (net_entries (List.length ranges))
      ++ flat_map client_entries (enumerate ranges).
Proof. unfold services_of. now rewrite expand_closed. Qed.

Lemma networks_closed (ranges : list SegmentSpec) :
  networks_of ranges = map network_entry (enumerate ranges).
Proof. unfold networks_of. now rewrite expand_closed. Qed.

Lemma volumes_closed (ranges : list SegmentSpec) :
  volumes_of ranges = [("filebeat_data", PDict [])].
Proof. unfold volumes_of. now rewrite expand_closed. Qed.

Lemma service_keys (ranges : list SegmentSpec) :
  keys (services_of ranges)
  = infra_names ++ flat_map segment_clients (enumerate ranges).
Proof.
  rewrite services_closed, keys_app, keys_flat_client_entries. reflexivity.
Qed.

Lemma map_fst_indexed {A : Type} (l : list A) :
  forall k, map fst (indexed k l) = seq k (List.length l).
Proof.
  induction l as [|a l IH]; intros k; [reflexivity |].
  rewrite indexed_cons. simpl. now rewrite IH.
Qed.

Lemma network_keys (ranges : list SegmentSpec) :
  keys (networks_of ranges) = map net_name (seq 0 (List.length ranges)).
Proof.
  rewrite networks_closed. unfold keys, network_entry.
  rewrite map_map. simpl.
  rewrite <- (map_fst_indexed ranges 0), map_map. reflexivity.
Qed.

Lemma keys_net_entries (n : nat) :
  keys (net_entries n) = map net_name (seq 0 n).
Proof. unfold keys, net_entries. now rewrite map_map. Qed.

Lemma services_NoDup (ranges : list SegmentSpec) :
  NoDup (keys (services_of ranges)).
Proof. rewrite service_keys. apply service_keys_NoDup. Qed.

Lemma networks_NoDup (ranges : list SegmentSpec) :
  NoDup (keys (networks_of ranges)).
Proof. rewrite network_keys. apply net_names_NoDup. Qed.

(** The services of the document, one by one. *)
Lemma in_services (ranges : list SegmentSpec) (name : string) (svc : pyval) :
  In (name, svc) (services_of ranges) <->
  In (name, svc) (infra_entries (net_entries (List.length ranges))) \/
  exists i subnet count interval j,
    nth_error ranges i = Some (subnet, count, interval) /\
    1 <= j <= count /\
    (name, svc) = client_entry i subnet interval j.
Proof.
  rewrite services_closed, in_app_iff, in_flat_map.
  apply or_iff_compat_l. split.
  - intros ([i [[subnet count] interval]] & He & Hin).
    apply in_indexed in He as [_ Hn]. rewrite Nat.sub_0_r in Hn.
    apply in_map_iff in Hin as (j & <- & Hj). apply in_range_iff in Hj.
    exists i, subnet, count, interval, j. repeat split; try lia; auto.
  - intros (i & subnet & count & interval & j & Hn & Hj & ->).
    exists (i, (subnet, count, interval)). split.
    + apply in_indexed. rewrite Nat.sub_0_r. split; [lia | exact Hn].
    + apply in_map. apply in_range_iff. lia.
Qed.

Lemma client_lookup (ranges : list SegmentSpec) (i : nat)
      (subnet : string) (count : Z) (interval : float) (j : Z) :
  nth_error ranges i = Some (subnet, count, interval) ->
  1 <= j <= count ->
  dict_get (services_of ranges) (client_name i j)
  = Some (client_service (client_name i j) (net_name i)
                         (ipv4_address subnet j) interval).
Proof.
  intros Hn Hj. apply dict_get_In; [apply services_NoDup |].
  apply in_services. right. now exists i, subnet, count, interval, j.
Qed.

Lemma infra_lookup (ranges : list SegmentSpec) (name : string) (svc : pyval) :
  In (name, svc) (infra_entries (net_entries (List.length ranges))) ->
  dict_get (services_of ranges) name = Some svc.
Proof.
  intros H. apply dict_get_In; [apply services_NoDup |].
  apply in_services. now left.
Qed.

Lemma client_address_closed (ranges : list SegmentSpec) (i : nat)
      (subnet : string) (count : Z) (interval : float) (j : Z) :
  nth_error ranges i = Some (subnet, count, interval) ->
  1 <= j <= count ->
  client_address (services_of ranges) i j = Some (ipv4_address subnet j).
Proof.
  intros Hn Hj. unfold client_address, address_in.
  rewrite (client_lookup ranges i subnet count interval j Hn Hj).
  simpl. now rewrite String.eqb_refl.
Qed.

Lemma network_lookup (ranges : list SegmentSpec) (i : nat)
      (subnet : string) (count : Z) (interval : float) :
  nth_error ranges i = Some (subnet, count, interval) ->
  dict_get (networks_of ranges) (net_name i) = Some (network_def subnet).
Proof.
  intros Hn. apply dict_get_In; [apply networks_NoDup |].
  rewrite networks_closed. apply in_map_iff.
  exists (i, (subnet, count, interval)). split; [reflexivity |].
  apply in_indexed. rewrite Nat.sub_0_r. split; [lia | exact Hn].
Qed.

End Expansion.

(** ** Dotted text *)

Section Dotted.

Lemma split_nonempty (c : ascii) (s : string) : Cidr.split c s <> [].
Proof.
  destruct s as [|a s]; simpl; [discriminate |].
  destruct (Ascii.eqb a c); [discriminate |].
  destruct (Cidr.split c s); discriminate.
Qed.

Lemma split_lacks (c : ascii) (t : string) :
  lacks c t = true -> Cidr.split c t = [t].
Proof.
  induction t as [|a t IH]; simpl; [reflexivity |].
  intros H. apply andb_true_iff in H as [Ha Ht].
  apply negb_true_iff in Ha. now rewrite Ha, (IH Ht).
Qed.

Lemma split_app (c : ascii) (s t : string) :
  lacks c s = true ->
  Cidr.split c (s ++ String c t) = s :: Cidr.split c t.
Proof.
  induction s as [|a s IH]; simpl; intros H.
  - now rewrite Ascii.eqb_refl.
  - apply andb_true_iff in H as [Ha Hs]. apply negb_true_iff in Ha.
    now rewrite Ha, (IH Hs).
Qed.

Lemma join_cons_char (sep : string) (a : ascii) (h : string) (t : list string) :
  join sep (String a h :: t) = String a (join sep (h :: t)).
Proof. destruct t; reflexivity. Qed.

Lemma join_split (c : ascii) (s : string) :
  join (String c "") (Cidr.split c s) = s.
Proof.
  induction s as [|a s IH]; [reflexivity |]. simpl Cidr.split.
  destruct (Ascii.eqb_spec a c) as [->|Hne].
  - pose proof (split_nonempty c s) as Hs.
    destruct (Cidr.split c s) as [|h t]; [contradiction |].
    simpl in IH |- *. now rewrite IH.
  - pose proof (split_nonempty c s) as Hs.
    destruct (Cidr.split c s) as [|h t]; [contradiction |].
    rewrite join_cons_char. now rewrite IH.
Qed.

Lemma parse_octet_digits (s : string) (v : Z) :
  Cidr.parse_octet s = Some v ->
  all_chars digit s = true /\ 0 <= v <= 255.
Proof.
  unfold Cidr.parse_octet.
  destruct (Cidr.parse_nat s) as [n|] eqn:E; [|discriminate].
  destruct (Z.leb_spec n 255); [|discriminate].
  intros [= <-]. apply parse_nat_digits in E as [Hd Hn]. split; [exact Hd | lia].
Qed.

Lemma parse_octet_str (n : Z) :
  0 <= n <= 255 -> Cidr.parse_octet (str n) = Some n.
Proof.
  intros Hn. unfold Cidr.parse_octet. rewrite parse_nat_str by lia.
  destruct (Z.leb_spec n 255); [reflexivity | lia].
Qed.

(** The text of a dotted quad that parses, octet by octet. *)
Lemma parse_ipv4_shape (addr : string) (ip : Z) :
  Cidr.parse_ipv4 addr = Some ip ->
  exists sa sb sc sd a b c d,
    addr = sa ++ "." ++ sb ++ "." ++ sc ++ "." ++ sd /\
    Cidr.parse_octet sa = Some a /\ Cidr.parse_octet sb = Some b /\
    Cidr.parse_octet sc = Some c /\ Cidr.parse_octet sd = Some d /\
    ip = ((a * 256 + b) * 256 + c) * 256 + d.
Proof.
  unfold Cidr.parse_ipv4. intros H.
  pose proof (join_split "." addr) as Hj.
  destruct (Cidr.split "." addr) as [|sa [|sb [|sc [|sd [|x l]]]]];
    simpl in H; try discriminate;
    repeat match type of H with
           | context [match Cidr.parse_octet ?s with _ => _ end] =>
               destruct (Cidr.parse_octet s) eqn:?; try discriminate
           end.
  injection H as <-. simpl in Hj.
  eexists sa, sb, sc, sd, _, _, _, _. repeat split; eauto.
Qed.

(** The text of a range that parses. *)
Lemma parse_cidr_shape (subnet : string) (ip p : Z) :
  Cidr.parse_cidr subnet = Some (ip, p) ->
  exists addr plen,
    subnet = addr ++ "/" ++ plen /\
    Cidr.parse_ipv4 addr = Some ip /\
    Cidr.parse_nat plen = Some p /\ p <= 32.
Proof.
  unfold Cidr.parse_cidr. intros H.
  pose proof (join_split "/" subnet) as Hj.
  destruct (Cidr.split "/" subnet) as [|addr [|plen [|x l]]];
    try discriminate.
  destruct (Cidr.parse_ipv4 addr) as [ip'|] eqn:Ea; [|discriminate].
  destruct (Cidr.parse_nat plen) as [p'|] eqn:Ep; [|discriminate].
  destruct (Z.leb_spec p' 32); [|discriminate].
  injection H as <- <-. simpl in Hj.
  exists addr, plen. repeat split; auto.
Qed.

(** The script's [base] of a range that parses: its first three octets. *)
Lemma base_of_cidr (subnet : string) (ip p : Z) :
  Cidr.parse_cidr subnet = Some (ip, p) ->
  exists sa sb sc a b c d,
    base subnet = sa ++ "." ++ sb ++ "." ++ sc /\
    Cidr.parse_octet sa = Some a /\ Cidr.parse_octet sb = Some b /\
    Cidr.parse_octet sc = Some c /\ 0 <= d <= 255 /\
    ip = ((a * 256 + b) * 256 + c) * 256 + d.
Proof.
  intros H. apply parse_cidr_shape in H as (addr & plen & -> & Ha & Hp & _).
  apply parse_ipv4_shape in Ha
    as (sa & sb & sc & sd & a & b & c & d & -> & Ea & Eb & Ec & Ed & ->).
  exists sa, sb, sc, a, b, c, d.
  apply parse_octet_digits in Ed as [Hsd Hd].
  apply parse_nat_digits in Hp as [Hsp _].
  repeat split; auto; try lia.
  unfold base.
  replace ((sa ++ "." ++ sb ++ "." ++ sc ++ "." ++ sd) ++ "/" ++ plen)
    with ((sa ++ "." ++ sb ++ "." ++ sc) ++ String "." (sd ++ "/" ++ plen))
    by (now rewrite !append_assoc).
  apply rsplit1_head_app. unfold lacks.
  rewrite all_chars_app. apply andb_true_iff. split.
  - now apply digits_lack.
  - simpl. now apply digits_lack.
Qed.

(** The number behind the script's address for a range that parses: the
    range's first three octets, then [31 + j]. *)
Lemma ipv4_address_value (subnet : string) (ip p j : Z) :
  Cidr.parse_cidr subnet = Some (ip, p) ->
  0 <= 31 + j <= 255 ->
  Cidr.parse_ipv4 (ipv4_address subnet j) = Some (ip - ip mod 256 + (31 + j)).
Proof.
  intros H Hj.
  apply base_of_cidr in H
    as (sa & sb & sc & a & b & c & d & Hb & Ea & Eb & Ec & Hd & ->).
  unfold ipv4_address. rewrite Hb.
  pose proof (parse_octet_digits _ _ Ea) as [Hsa _].
  pose proof (parse_octet_digits _ _ Eb) as [Hsb _].
  pose proof (parse_octet_digits _ _ Ec) as [Hsc _].
  unfold Cidr.parse_ipv4.
  replace ((sa ++ "." ++ sb ++ "." ++ sc) ++ "." ++ str (31 + j))
    with (sa ++ String "." (sb ++ String "." (sc ++ String "." (str (31 + j)))))
    by (now rewrite !append_assoc).
  rewrite !split_app by now apply digits_lack.
  rewrite split_lacks by (apply str_lacks; [reflexivity | lia]).
  cbn [map]. rewrite Ea, Eb, Ec. rewrite parse_octet_str by lia.
  f_equal.
  replace (((a * 256 + b) * 256 + c) * 256 + d)
    with (d + ((a * 256 + b) * 256 + c) * 256) by lia.
  rewrite Z.mod_add by lia. rewrite Z.mod_small by lia. lia.
Qed.

Lemma last_component_address (subnet : string) (j : Z) :
  0 <= 31 + j -> Cidr.last_component (ipv4_address subnet j) = Some (31 + j).
Proof.
  intros Hj. unfold Cidr.last_component, ipv4_address. cbn [append].
  rewrite after_last_app by (apply str_lacks; [reflexivity | lia]).
  now apply parse_nat_str.
Qed.

Lemma ipv4_address_inj (subnet : string) (j j' : Z) :
  ipv4_address subnet j = ipv4_address subnet j' -> j = j'.
Proof.
  unfold ipv4_address. intros E.
  do 2 apply append_cancel_l in E.
  apply str_inj in E. lia.
Qed.

(** Adding less than 256 to an address whose last octet is cleared stays
    within any range of prefix length at most 24 that holds the address. *)
Lemma contains_low_octet (ip p k : Z) :
  0 <= p <= 24 -> 0 <= k <= 255 ->
  Cidr.contains ip p (ip - ip mod 256 + k) = true.
Proof.
  intros Hp Hk. unfold Cidr.contains. apply Z.eqb_eq.
  rewrite !Z.shiftr_div_pow2 by lia.
  replace (32 - p) with (8 + (24 - p)) by lia.
  rewrite Z.pow_add_r by lia.
  rewrite <- !Z.div_div by lia.
  f_equal. change (2 ^ 8) with 256.
  pose proof (Z.div_mod ip 256 ltac:(lia)) as E.
  pose proof (Z.mod_pos_bound ip 256 ltac:(lia)) as B.
  replace (ip - ip mod 256 + k) with (k + (ip / 256) * 256) by lia.
  rewrite Z.div_add by lia. rewrite Z.div_small by lia. lia.
Qed.

End Dotted.

(** ** Reading services *)

Section Services.

#[local] Open Scope list_scope.

Lemma member_networks_proxy (nets : dict) :
  member_networks (proxy_service nets) = keys nets.
Proof. reflexivity. Qed.

Lemma member_networks_cidrx (nets : dict) :
  member_networks (cidrx_service nets) = keys nets.
Proof. reflexivity. Qed.

Lemma member_networks_filebeat (nets : dict) :
  member_networks (filebeat_service nets) = keys nets.
Proof. reflexivity. Qed.

Lemma member_networks_client (name net address : string) (interval : float) :
  member_networks (client_service name net address interval) = [net].
Proof. reflexivity. Qed.

Lemma dependencies_client (name net address : string) (interval : float) :
  dependencies (client_service name net address interval) = ["proxy"%string].
Proof. reflexivity. Qed.

Lemma in_infra_entries (nets : dict) (name : string) (svc : pyval) :
  In (name, svc) (infra_entries nets) ->
  In name infra_names /\
  member_networks svc = keys nets /\
  (name = "proxy"%string /\ get svc "depends_on" = None \/
   name = "cidrx"%string /\ get svc "depends_on" = None \/
   name = "filebeat"%string /\
     dependencies svc = ["proxy"%string; "cidrx"%string]).
Proof.
  unfold infra_entries, infra_names. simpl.
  intros [[= <- <-]|[[= <- <-]|[[= <- <-]|[]]]]; repeat split; auto.
Qed.

Lemma dependencies_infra (nets : dict) (name : string) (svc : pyval) :
  In (name, svc) (infra_entries nets) -> incl (dependencies svc) infra_names.
Proof.
  unfold infra_entries, infra_names. simpl.
  intros [[= <- <-]|[[= <- <-]|[[= <- <-]|[]]]]; intros x; simpl; tauto.
Qed.

(** The client count of a list of segments, a negative count adding none. *)
Lemma clients_length (l : list SegmentSpec) :
  forall k,
    len (flat_map client_entries (indexed k l))
    = fold_right Z.add 0 (map (fun spec => Z.max 0 (snd (fst spec))) l).
Proof.
  unfold len. induction l as [|[[subnet count] interval] l IH]; intros k.
  - reflexivity.
  - rewrite indexed_cons. simpl flat_map. rewrite length_app, Nat2Z.inj_add.
    rewrite IH. simpl. rewrite length_map, length_range. lia.
Qed.

Lemma total_hosts_nonneg (l : list SegmentSpec) :
  Forall (fun spec => 0 <= snd (fst spec)) l ->
  fold_right Z.add 0 (map (fun spec => Z.max 0 (snd (fst spec))) l)
  = total_hosts l.
Proof.
  unfold total_hosts. induction 1 as [|spec l Hs _ IH]; simpl; [reflexivity |].
  rewrite IH. lia.
Qed.

Lemma length_indexed {A : Type} (l : list A) (k : nat) :
  List.length (indexed k l) = List.length l.
Proof.
  unfold indexed. rewrite length_combine, length_seq. apply Nat.min_id.
Qed.

End Services.

(** ** The properties of the expanded document *)

Section Document.

#[local] Open Scope list_scope.

(** C3: the document has one network per segment spec and three services
    plus one per requested host (host counts being non-negative); for the
    empty list that is no network, the three infrastructure services alone,
    and the one volume. *)
Theorem document_sizes (ranges : list SegmentSpec) :
  Forall (fun spec => 0 <= snd (fst spec)) ranges ->
  len (networks_of ranges) = len ranges /\
  len (services_of ranges) = 3 + total_hosts ranges /\
  len (volumes_of ranges) = 1 /\
  networks_of [] = [] /\
  keys (services_of []) = ["proxy"; "cidrx"; "filebeat"]%string /\
  len (services_of []) = 3 /\
  len (volumes_of []) = 1.
Proof.
  intros Hpos. repeat split; try reflexivity.
  - rewrite networks_closed, <- indexed_0. unfold len.
    now rewrite length_map, length_indexed.
  - rewrite services_closed. unfold len.
    rewrite length_app, Nat2Z.inj_add, <- indexed_0.
    fold (len (flat_map client_entries (indexed 0 ranges))).
    rewrite clients_length, total_hosts_nonneg by exact Hpos.
    reflexivity.
  - now rewrite volumes_closed.
Qed.

Lemma document_sizes_witness :
  Forall (fun spec : SegmentSpec => 0 <= snd (fst spec)) RANGES /\
  len (networks_of RANGES) = 4 /\
  len (services_of RANGES) = 3 + 44.
Proof.
  assert (H : Forall (fun spec : SegmentSpec => 0 <= snd (fst spec)) RANGES)
    by (repeat constructor; simpl; lia).
  split; [exact H |].
  destruct (document_sizes RANGES H) as (Hn & Hs & _).
  split; [exact Hn | exact Hs].
Defined.

(** C6: each of the three infrastructure services is in the document and
    is a member of every network of the document's networks map. *)
Theorem infra_on_every_network (ranges : list SegmentSpec) :
  Forall (fun name =>
            exists svc,
              dict_get (services_of ranges) name = Some svc /\
              incl (keys (networks_of ranges)) (member_networks svc))
         infra_names.
Proof.
  assert (Hk : keys (net_entries (List.length ranges))
               = keys (networks_of ranges))
    by now rewrite keys_net_entries, network_keys.
  unfold infra_names. repeat constructor.
  - exists (proxy_service (net_entries (List.length ranges))). split.
    + apply infra_lookup. simpl. auto.
    + rewrite member_networks_proxy, Hk. apply incl_refl.
  - exists (cidrx_service (net_entries (List.length ranges))). split.
    + apply infra_lookup. simpl. auto.
    + rewrite member_networks_cidrx, Hk. apply incl_refl.
  - exists (filebeat_service (net_entries (List.length ranges))). split.
    + apply infra_lookup. simpl. auto.
    + rewrite member_networks_filebeat, Hk. apply incl_refl.
Qed.

(** C7: the proxy and the indexer ([cidrx]) declare no dependency, the log
    shipper ([filebeat]) depends on exactly the proxy and the indexer, and
    every other service of the document, that is every client, depends on
    exactly the proxy. *)
Theorem dependency_sets (ranges : list SegmentSpec) :
  (exists svc, dict_get (services_of ranges) "proxy" = Some svc /\
               get svc "depends_on" = None) /\
  (exists svc, dict_get (services_of ranges) "cidrx" = Some svc /\
               get svc "depends_on" = None) /\
  (exists svc, dict_get (services_of ranges) "filebeat" = Some svc /\
               dependencies svc = ["proxy"; "cidrx"]%string) /\
  Forall (fun entry =>
            In (fst entry) infra_names \/
            dependencies (snd entry) = ["proxy"%string])
         (services_of ranges).
Proof.
  repeat split.
  - exists (proxy_service (net_entries (List.length ranges))). split.
    + apply infra_lookup. simpl. auto.
    + reflexivity.
  - exists (cidrx_service (net_entries (List.length ranges))). split.
    + apply infra_lookup. simpl. auto.
    + reflexivity.
  - exists (filebeat_service (net_entries (List.length ranges))). split.
    + apply infra_lookup. simpl. auto.
    + reflexivity.
  - apply Forall_forall. intros [name svc] Hin.
    apply in_services in Hin
      as [Hin|(i & subnet & count & interval & j & _ & _ & [= -> ->])].
    + left. now apply in_infra_entries in Hin.
    + right. apply dependencies_client.
Qed.

(** C8: every network a service is a member of is a key of the networks
    map, and every service a service depends on is a key of the services
    map. *)
Theorem referentially_closed (ranges : list SegmentSpec) :
  Forall (fun entry =>
            incl (member_networks (snd entry)) (keys (networks_of ranges)) /\
            incl (dependencies (snd entry)) (keys (services_of ranges)))
         (services_of ranges).
Proof.
  apply Forall_forall. intros [name svc] Hin. simpl.
  apply in_services in Hin
    as [Hin|(i & subnet & count & interval & j & Hn & _ & [= -> ->])].
  - split.
    + apply in_infra_entries in Hin as (_ & -> & _).
      rewrite keys_net_entries, network_keys. apply incl_refl.
    + apply dependencies_infra in Hin. intros x Hx.
      rewrite service_keys. apply in_or_app. left. now apply Hin.
  - split.
    + rewrite member_networks_client. intros x [<-|[]].
      rewrite network_keys. apply in_map, in_seq.
      assert (i < List.length ranges)%nat
        by (apply nth_error_Some; congruence).
      lia.
    + rewrite dependencies_client. intros x [<-|[]].
      rewrite service_keys. simpl. auto.
Qed.

End Document.

(** ** Running the script *)

Section Running.

#[local] Open Scope list_scope.

Lemma dict_get_set_same {V : Type} (d : list (string * V)) (k : string) (v : V) :
  dict_get (dict_set d k v) k = Some v.
Proof.
  induction d as [|[k' v'] d IH]; simpl.
  - now rewrite String.eqb_refl.
  - destruct (String.eqb k' k) eqn:E; simpl; now rewrite E.
Qed.

Lemma dict_set_idem {V : Type} (d : list (string * V)) (k : string) (v : V) :
  dict_set (dict_set d k v) k v = dict_set d k v.
Proof.
  induction d as [|[k' v'] d IH]; simpl.
  - now rewrite String.eqb_refl.
  - destruct (String.eqb k' k) eqn:E; simpl; rewrite E; [reflexivity |].
    now rewrite IH.
Qed.

(** The run, with the document named. *)
Lemma generate_compose_closed (ranges : list SegmentSpec) (w : World) :
  generate_compose ranges w
  = if can_open w OUTPUT_FILE then
      match write_fault w with
      | Some bytes =>
          Raised OSError
                 (with_file w OUTPUT_FILE
                            (yaml_dump_cut (compose ranges) false bytes))
      | None =>
          if stdout_fault w
          then Raised OSError
                      (with_file w OUTPUT_FILE (yaml_dump (compose ranges) false))
          else Returned
                 (printed (with_file w OUTPUT_FILE
                                     (yaml_dump (compose ranges) false))
                          (summary (services_of ranges) (networks_of ranges)))
      end
    else Raised OSError w.
Proof.
  unfold generate_compose, compose, services_of, networks_of, volumes_of.
  destruct (expand ranges) as [[services networks] volumes]. reflexivity.
Qed.

(** The only exception a run ends with is the one the system raises. *)
Lemma generate_compose_raises (ranges : list SegmentSpec) (w : World)
      (e : exn) :
  fails_with e (generate_compose ranges w) -> e = OSError.
Proof.
  intros [w' H]. rewrite generate_compose_closed in H.
  destruct (can_open w OUTPUT_FILE); [|now injection H].
  destruct (write_fault w); [now injection H |].
  destruct (stdout_fault w); [now injection H | discriminate].
Qed.

(** A run returns exactly when the system raises nothing, and then the
    output file holds the whole dump of the document. *)
Lemma generate_compose_returns (ranges : list SegmentSpec) (w w' : World) :
  generate_compose ranges w = Returned w' <->
  undisturbed w = true /\
  w' = printed (with_file w OUTPUT_FILE (yaml_dump (compose ranges) false))
               (summary (services_of ranges) (networks_of ranges)).
Proof.
  rewrite generate_compose_closed. unfold undisturbed.
  destruct (can_open w OUTPUT_FILE); simpl;
    [|split; [discriminate | intros [H _]; discriminate H]].
  destruct (write_fault w); simpl;
    [split; [discriminate | intros [H _]; discriminate H] |].
  destruct (stdout_fault w); simpl;
    [split; [discriminate | intros [H _]; discriminate H] |].
  split.
  - intros [= <-]. now split.
  - intros [_ ->]. reflexivity.
Qed.

Lemma undisturbed_returns (ranges : list SegmentSpec) (w : World) :
  undisturbed w = true ->
  exists w', generate_compose ranges w = Returned w' /\
             dict_get (files w') OUTPUT_FILE
             = Some (yaml_dump (compose ranges) false).
Proof.
  intros H. eexists. split.
  - apply generate_compose_returns. split; [exact H | reflexivity].
  - cbn [printed with_file files]. apply dict_get_set_same.
Qed.

(** C10: two ranges that are the same text up to their last dot give every
    slot the same address, whatever follows the dot (the last octet and the
    prefix length): the address is the common text, a dot, and [31 + j]. *)
Theorem address_ignores_prefix (b t1 t2 : string) (j : Z) :
  lacks "." t1 = true -> lacks "." t2 = true ->
  ipv4_address (b ++ "." ++ t1) j = (b ++ "." ++ str (31 + j))%string /\
  ipv4_address (b ++ "." ++ t1) j = ipv4_address (b ++ "." ++ t2) j /\
  forall count interval,
    1 <= j <= count ->
    client_address (services_of [((b ++ "." ++ t1)%string, count, interval)]) 0 j
    = client_address (services_of [((b ++ "." ++ t2)%string, count, interval)]) 0 j.
Proof.
  intros H1 H2.
  assert (E : forall t, lacks "." t = true ->
                        ipv4_address (b ++ "." ++ t) j
                        = (b ++ "." ++ str (31 + j))%string).
  { intros t Ht. unfold ipv4_address, base.
    change (b ++ "." ++ t)%string with (b ++ String "." t)%string.
    now rewrite rsplit1_head_app. }
  split; [now apply E |].
  split; [now rewrite !E |].
  intros count interval Hj.
  rewrite (client_address_closed _ 0 (b ++ "." ++ t1) count interval j)
    by (auto; reflexivity).
  rewrite (client_address_closed _ 0 (b ++ "." ++ t2) count interval j)
    by (auto; reflexivity).
  now rewrite !E.
Qed.

Lemma address_ignores_prefix_witness :
  lacks "." "0/24" = true /\ lacks "." "128/25" = true /\
  ipv4_address "10.0.1.0/24" 1 = ipv4_address "10.0.1.128/25" 1.
Proof.
  split; [reflexivity |]. split; [reflexivity |].
  exact (proj1 (proj2 (address_ignores_prefix "10.0.1" "0/24" "128/25" 1
                                              eq_refl eq_refl))).
Defined.

End Running.

(** ** Addresses and ranges *)

Section Addresses.

#[local] Open Scope list_scope.

Lemma parse_cidr_prefix (subnet : string) (ip p : Z) :
  Cidr.parse_cidr subnet = Some (ip, p) -> 0 <= p <= 32.
Proof.
  intros H. apply parse_cidr_shape in H as (addr & plen & _ & _ & Hp & Hle).
  apply parse_nat_digits in Hp as [_ Hp]. lia.
Qed.

Lemma in_range_low_octet (subnet : string) (ip p j : Z) :
  Cidr.parse_cidr subnet = Some (ip, p) ->
  p <= 24 -> 0 <= 31 + j <= 255 ->
  Cidr.in_range subnet (ipv4_address subnet j) = true.
Proof.
  intros H Hp Hj. unfold Cidr.in_range.
  rewrite H, (ipv4_address_value subnet ip p j H Hj).
  apply contains_low_octet; [|lia].
  apply parse_cidr_prefix in H. lia.
Qed.

(** The claim of C1 as it is stated fails on the range 10.0.1.128/25, which
    has room for its one host: slot 1 is given 10.0.1.32, an address below
    the range.  It fails as well on a /24 with 225 hosts, where slot 225 is
    given the text 10.0.1.256. *)
Lemma address_outside_range :
  ~ addresses_within_range [("10.0.1.128/25"%string, 1, 0.1%float)] /\
  ~ addresses_within_range [("10.0.1.0/24"%string, 225, 0.1%float)].
Proof.
  split; intros H.
  - destruct (H 0%nat "10.0.1.128/25"%string 1 0.1%float 1 eq_refl ltac:(lia))
      as (a & Ha & Hin).
    vm_compute in Ha. injection Ha as <-.
    vm_compute in Hin. discriminate Hin.
  - destruct (H 0%nat "10.0.1.0/24"%string 225 0.1%float 225 eq_refl ltac:(lia))
      as (a & Ha & Hin).
    vm_compute in Ha. injection Ha as <-.
    vm_compute in Hin. discriminate Hin.
Qed.

(** C1, amended: within a segment the clients of slots 1 to [count] have
    addresses that are pairwise distinct and whose last component,
    [31 + slot], strictly increases with the slot; the addresses lie within
    the declared range when that range parses as a CIDR of prefix length at
    most 24 and [31 + count] is at most 255. *)
Theorem segment_addresses (ranges : list SegmentSpec) (i : nat)
        (subnet : string) (count : Z) (interval : float) :
  nth_error ranges i = Some (subnet, count, interval) ->
  (forall j, 1 <= j <= count ->
             client_address (services_of ranges) i j
             = Some (ipv4_address subnet j) /\
             Cidr.last_component (ipv4_address subnet j) = Some (31 + j)) /\
  (forall j j', 1 <= j <= count -> 1 <= j' <= count -> j <> j' ->
                client_address (services_of ranges) i j
                <> client_address (services_of ranges) i j') /\
  (forall ip p, Cidr.parse_cidr subnet = Some (ip, p) ->
                p <= 24 -> 31 + count <= 255 ->
                forall j, 1 <= j <= count ->
                          Cidr.in_range subnet (ipv4_address subnet j) = true).
Proof.
  intros Hn. repeat split.
  - now apply (client_address_closed ranges i subnet count interval).
  - apply last_component_address. lia.
  - intros j j' Hj Hj' Hne.
    rewrite (client_address_closed ranges i subnet count interval j Hn Hj).
    rewrite (client_address_closed ranges i subnet count interval j' Hn Hj').
    intros [= E]. now apply ipv4_address_inj in E.
  - intros ip p Hp Hle Hc j Hj.
    apply (in_range_low_octet subnet ip p j Hp Hle). lia.
Qed.

Lemma segment_addresses_witness :
  nth_error RANGES 3 = Some ("172.16.16.0/24"%string, 33, 0.07%float) /\
  client_address (services_of RANGES) 3 33 = Some "172.16.16.64"%string /\
  Cidr.in_range "172.16.16.0/24" "172.16.16.64" = true.
Proof.
  split; [reflexivity |].
  destruct (segment_addresses RANGES 3 "172.16.16.0/24" 33 0.07%float eq_refl)
    as (Ha & _ & Hr).
  split.
  - exact (proj1 (Ha 33 ltac:(lia))).
  - exact (Hr 2886733824 24 eq_refl ltac:(lia) ltac:(lia) 33 ltac:(lia)).
Defined.

(** The claim of C4 as it is stated fails on the range 10.0.1.128/25: its
    network base is 10.0.1.128, so base plus 31 plus 1 is 10.0.1.160, and
    the script gives slot 1 the address 10.0.1.32.  It fails as well for
    slot 225 of 10.0.1.0/24, where base plus 31 plus 225 is 10.0.2.0 and
    the script gives the text 10.0.1.256. *)
Lemma address_not_base_plus_offset :
  ~ address_is_base_plus_offset "10.0.1.128/25" 1 /\
  ~ address_is_base_plus_offset "10.0.1.0/24" 225.
Proof.
  split; intros H.
  - specialize (H 167772544 25 eq_refl). vm_compute in H. discriminate H.
  - specialize (H 167772416 24 eq_refl). vm_compute in H. discriminate H.
Qed.

(** C4, amended: the address of the client in slot [j] of a segment is the
    text of the segment's range before its last dot, a dot, and the decimal
    [31 + j]; that is the range's network base plus 31 plus [j] when the
    range is well formed, its last octet is 0 and [31 + j] is at most 255.
    For the single spec ("10.0.1.0/24", 2, 0.1) the document has the one
    network net1 with pool 10.0.1.0/24, five services, one volume, and the
    clients client1_1 at 10.0.1.32 and client1_2 at 10.0.1.33. *)
Theorem address_formula :
  (forall ranges i subnet count interval j,
      nth_error ranges i = Some (subnet, count, interval) ->
      1 <= j <= count ->
      client_address (services_of ranges) i j
      = Some (rsplit1_head "." subnet ++ "." ++ str (31 + j))%string) /\
  (forall subnet ip p j,
      Cidr.parse_cidr subnet = Some (ip, p) ->
      Cidr.well_formed ip p = true -> ip mod 256 = 0 ->
      1 <= j -> 31 + j <= 255 ->
      Cidr.parse_ipv4 (ipv4_address subnet j)
      = Some (Cidr.network_base ip p + 31 + j)) /\
  (let ranges := [("10.0.1.0/24"%string, 2, 0.1%float)] in
   keys (networks_of ranges) = ["net1"%string] /\
   pool_of (networks_of ranges) "net1" = Some "10.0.1.0/24"%string /\
   keys (services_of ranges)
   = ["proxy"; "cidrx"; "filebeat"; "client1_1"; "client1_2"]%string /\
   len (volumes_of ranges) = 1 /\
   address_in (services_of ranges) "client1_1" "net1"
   = Some "10.0.1.32"%string /\
   address_in (services_of ranges) "client1_2" "net1"
   = Some "10.0.1.33"%string /\
   Cidr.parse_cidr "10.0.1.0/24" = Some (167772416, 24) /\
   Cidr.parse_ipv4 "10.0.1.32"
   = Some (Cidr.network_base 167772416 24 + 31 + 1)).
Proof.
  split; [|split].
  - intros ranges i subnet count interval j Hn Hj.
    now rewrite (client_address_closed ranges i subnet count interval j).
  - intros subnet ip p j Hp Hwf H0 Hj1 Hj2.
    rewrite (ipv4_address_value subnet ip p j Hp) by lia.
    unfold Cidr.well_formed in Hwf. apply Z.eqb_eq in Hwf.
    rewrite Hwf, H0. f_equal. lia.
  - vm_compute. repeat split; reflexivity.
Qed.

End Addresses.

(** ** Runs that the design documents expect to fail *)

Section Failures.

#[local] Open Scope list_scope.

Lemma no_client_without_slot (ranges : list SegmentSpec) (i : nat)
      (subnet : string) (count : Z) (interval : float) (j : Z) :
  nth_error ranges i = Some (subnet, count, interval) ->
  ~ 1 <= j <= count ->
  dict_get (services_of ranges) (client_name i j) = None.
Proof.
  intros Hn Hj. apply dict_get_None. rewrite service_keys.
  intros Hin. apply in_app_or in Hin as [Hin|Hin].
  - now apply client_name_not_infra in Hin.
  - apply in_flat_map in Hin as ([i' [[subnet' count'] interval']] & He & Hin).
    apply in_indexed in He as [_ He]. rewrite Nat.sub_0_r in He.
    unfold segment_clients in Hin. simpl in Hin.
    apply in_map_iff in Hin as (j' & E & Hj').
    apply client_name_inj in E as [-> ->].
    apply in_range_iff in Hj'. rewrite Hn in He. injection He as _ <- _. lia.
Qed.

Lemma pool_lookup (ranges : list SegmentSpec) (i : nat)
      (subnet : string) (count : Z) (interval : float) :
  nth_error ranges i = Some (subnet, count, interval) ->
  pool_of (networks_of ranges) (net_name i) = Some subnet.
Proof.
  intros Hn. unfold pool_of.
  now rewrite (network_lookup ranges i subnet count interval Hn).
Qed.

(** The claim of C2 as it is stated fails on a /24 with 224 hosts, where
    [31 + 224 > 254]: the run returns. *)
Lemma exhausted_range_accepted :
  ~ exhaustion_is_refused [("10.0.1.0/24"%string, 224, 0.1%float)] empty_world.
Proof.
  intros H. destruct (H eq_refl) as [w Hw].
  apply (f_equal written) in Hw. vm_compute in Hw. discriminate Hw.
Qed.

(** C2, amended: address allocation never fails.  No run ends with
    AddressSpaceExhausted, whatever the host counts: the only exception a
    run ends with is the [OSError] of opening, writing or printing.  Slot
    [j] of a segment is given the address [base.(31+j)] for every [j] up to
    the host count, also beyond the host space of the range; and a run in
    which the system raises nothing returns with the whole document
    written, so that a /24 with [31 + hostCount > 254] still produces a
    document. *)
Theorem allocation_never_fails (ranges : list SegmentSpec) (w : World) :
  ~ fails_with AddressSpaceExhausted (generate_compose ranges w) /\
  (forall e, fails_with e (generate_compose ranges w) -> e = OSError) /\
  (forall i subnet count interval j,
      nth_error ranges i = Some (subnet, count, interval) ->
      1 <= j <= count ->
      client_address (services_of ranges) i j
      = Some (ipv4_address subnet j)) /\
  (undisturbed w = true ->
   exists w', generate_compose ranges w = Returned w' /\
              dict_get (files w') OUTPUT_FILE
              = Some (yaml_dump (compose ranges) false)).
Proof.
  split; [|split; [|split]].
  - intros H. apply generate_compose_raises in H. discriminate H.
  - intros e. apply generate_compose_raises.
  - intros i subnet count interval j Hn Hj.
    now apply (client_address_closed ranges i subnet count interval).
  - apply undisturbed_returns.
Qed.

(** The claim of C5 as it is stated fails on a spec whose range is not a
    CIDR and whose host count is 0: the run returns and the document is
    written. *)
Lemma invalid_spec_accepted :
  ~ invalid_is_refused [("not-a-cidr"%string, 0, 0.1%float)] empty_world.
Proof.
  intros H. specialize (H eq_refl). vm_compute in H. discriminate H.
Qed.

(** C5, amended: the expansion does not validate its input.  No run ends
    with InvalidSpec: the only exception a run ends with is the [OSError]
    of opening, writing or printing.  A range is taken as it is written,
    well formed or not: it becomes the pool of the segment's network; a
    segment with a non-positive host count has its network and no client;
    and a run in which the system raises nothing returns with the whole
    document written. *)
Theorem no_validation (ranges : list SegmentSpec) (w : World) :
  ~ fails_with InvalidSpec (generate_compose ranges w) /\
  (forall e, fails_with e (generate_compose ranges w) -> e = OSError) /\
  (forall i subnet count interval,
      nth_error ranges i = Some (subnet, count, interval) ->
      pool_of (networks_of ranges) (net_name i) = Some subnet /\
      (count <= 0 ->
       forall j, dict_get (services_of ranges) (client_name i j) = None)) /\
  (undisturbed w = true ->
   exists w', generate_compose ranges w = Returned w' /\
              dict_get (files w') OUTPUT_FILE
              = Some (yaml_dump (compose ranges) false)).
Proof.
  split; [|split; [|split]].
  - intros H. apply generate_compose_raises in H. discriminate H.
  - intros e. apply generate_compose_raises.
  - intros i subnet count interval Hn. split.
    + now apply (pool_lookup ranges i subnet count interval).
    + intros Hc j.
      apply (no_client_without_slot ranges i subnet count interval);
        [exact Hn | lia].
  - apply undisturbed_returns.
Qed.

End Failures.

(** ** Lookups in the expanded document *)

Section Lookups.

#[local] Open Scope list_scope.

Lemma no_client_without_segment (ranges : list SegmentSpec) (i : nat) (j : Z) :
  nth_error ranges i = None ->
  dict_get (services_of ranges) (client_name i j) = None.
Proof.
  intros Hn. apply dict_get_None. rewrite service_keys.
  intros Hin. apply in_app_or in Hin as [Hin|Hin].
  - now apply client_name_not_infra in Hin.
  - apply in_flat_map in Hin as ([i' spec] & He & Hin).
    apply in_indexed in He as [_ He]. rewrite Nat.sub_0_r in He.
    apply in_map_iff in Hin as (j' & E & _).
    apply client_name_inj in E as [E _]. simpl in E. congruence.
Qed.

(** [services.get(f'client{i+1}_{j}')] for any [i] and [j]. *)
Lemma client_lookup_total (ranges : list SegmentSpec) (i : nat) (j : Z) :
  dict_get (services_of ranges) (client_name i j)
  = match nth_error ranges i with
    | Some (subnet, count, interval) =>
        if (1 <=? j) && (j <=? count)
        then Some (client_service (client_name i j) (net_name i)
                                  (ipv4_address subnet j) interval)
        else None
    | None => None
    end.
Proof.
  destruct (nth_error ranges i) as [[[subnet count] interval]|] eqn:Hn.
  - destruct (Z.leb_spec 1 j); destruct (Z.leb_spec j count); simpl;
      try (apply (no_client_without_slot ranges i subnet count interval);
           [exact Hn | lia]).
    apply (client_lookup ranges i subnet count interval); [exact Hn | lia].
  - now apply no_client_without_segment.
Qed.

(** [networks.get(f'net{i+1}')] for any [i]. *)
Lemma network_lookup_total (ranges : list SegmentSpec) (i : nat) :
  dict_get (networks_of ranges) (net_name i)
  = option_map (fun spec : SegmentSpec => network_def (fst (fst spec)))
               (nth_error ranges i).
Proof.
  destruct (nth_error ranges i) as [[[subnet count] interval]|] eqn:Hn.
  - apply (network_lookup ranges i subnet count interval Hn).
  - apply dict_get_None. rewrite network_keys. intros Hin.
    apply in_map_iff in Hin as (i' & E & Hi').
    apply net_name_inj in E as ->. apply in_seq in Hi'.
    apply nth_error_None in Hn. lia.
Qed.

Lemma map_snd_indexed {A : Type} (l : list A) :
  forall k, map snd (indexed k l) = l.
Proof.
  induction l as [|a l IH]; intros k; [reflexivity |].
  rewrite indexed_cons. simpl. now rewrite IH.
Qed.

Lemma indexed_app {A : Type} (l l' : list A) :
  forall k, indexed k (l ++ l')
            = indexed k l ++ indexed (k + List.length l) l'.
Proof.
  induction l as [|a l IH]; intros k.
  - simpl. now rewrite Nat.add_0_r.
  - rewrite <- app_comm_cons, !indexed_cons, IH. simpl.
    do 3 f_equal. lia.
Qed.

Lemma dict_get_set_other {V : Type} (d : list (string * V))
      (k k' : string) (v : V) :
  k' <> k -> dict_get (dict_set d k v) k' = dict_get d k'.
Proof.
  intros Hne. induction d as [|[k0 v0] d IH]; simpl.
  - destruct (String.eqb_spec k k'); [congruence | reflexivity].
  - destruct (String.eqb_spec k0 k) as [->|Hk]; simpl.
    + destruct (String.eqb_spec k k'); [congruence | reflexivity].
    + destruct (String.eqb_spec k0 k'); [reflexivity | exact IH].
Qed.

Lemma services_length (ranges : list SegmentSpec) :
  len (services_of ranges) = 3 + client_total ranges.
Proof.
  rewrite services_closed. unfold len.
  rewrite length_app, Nat2Z.inj_add, <- indexed_0.
  fold (len (flat_map client_entries (indexed 0 ranges))).
  rewrite clients_length. reflexivity.
Qed.

Lemma networks_length (ranges : list SegmentSpec) :
  len (networks_of ranges) = len ranges.
Proof.
  rewrite networks_closed, <- indexed_0. unfold len.
  now rewrite length_map, length_indexed.
Qed.

Lemma before_last_None (c : ascii) (s : string) :
  before_last c s = None -> lacks c s = true.
Proof.
  unfold lacks. induction s as [|a s IH]; simpl; [reflexivity |].
  destruct (before_last c s); [discriminate |].
  destruct (Ascii.eqb a c); [discriminate |]. intros _. now apply IH.
Qed.

Lemma before_last_Some (c : ascii) (s h : string) :
  before_last c s = Some h ->
  exists t, s = (h ++ String c t)%string /\ lacks c t = true.
Proof.
  revert h. induction s as [|a s IH]; simpl; intros h; [discriminate |].
  destruct (before_last c s) as [h'|] eqn:E.
  - intros [= <-]. destruct (IH h' eq_refl) as (t & -> & Ht).
    now exists t.
  - destruct (Ascii.eqb_spec a c) as [->|Hne]; [|discriminate].
    intros [= <-]. exists s. split; [reflexivity |].
    now apply before_last_None.
Qed.

Lemma split_app_any (c : ascii) (s t : string) :
  Cidr.split c (s ++ String c t) = Cidr.split c s ++ Cidr.split c t.
Proof.
  induction s as [|a s IH]; simpl.
  - now rewrite Ascii.eqb_refl.
  - destruct (Ascii.eqb a c).
    + now rewrite IH.
    + rewrite IH. pose proof (split_nonempty c s) as Hs.
      destruct (Cidr.split c s) as [|h l]; [contradiction | reflexivity].
Qed.

End Lookups.

(** ** Further properties of the services and networks *)

Section Clients.

#[local] Open Scope list_scope.

(** X1: the services map has an entry [client{i+1}_{j}] exactly when the
    table has a segment at index [i] and [1 <= j <= count] for that
    segment; a count of zero or less gives the segment no client. *)
Theorem client_present_iff (ranges : list SegmentSpec) (i : nat) (j : Z) :
  (exists svc, dict_get (services_of ranges) (client_name i j) = Some svc) <->
  (exists subnet count interval,
      nth_error ranges i = Some (subnet, count, interval) /\
      1 <= j <= count).
Proof.
  rewrite client_lookup_total.
  destruct (nth_error ranges i) as [[[subnet count] interval]|]; split.
  - intros [svc H]. exists subnet, count, interval. split; [reflexivity |].
    destruct (Z.leb_spec 1 j); destruct (Z.leb_spec j count);
      simpl in H; try discriminate. lia.
  - intros (s & c & iv & [= <- <- <-] & Hj).
    destruct (Z.leb_spec 1 j); destruct (Z.leb_spec j count); try lia.
    simpl. eauto.
  - intros [svc H]. discriminate H.
  - intros (s & c & iv & H & _). discriminate H.
Qed.

(** X2: every service of the document, infrastructure or client, has its
    key in the services map as its [container_name]. *)
Theorem container_name_is_key (ranges : list SegmentSpec) :
  Forall (fun entry => get (snd entry) "container_name"
                       = Some (PStr (fst entry)))
         (services_of ranges).
Proof.
  apply Forall_forall. intros [name svc] Hin.
  apply in_services in Hin
    as [Hin|(i & subnet & count & interval & j & _ & _ & [= -> ->])].
  - unfold infra_entries in Hin. simpl in Hin.
    destruct Hin as [[= <- <-]|[[= <- <-]|[[= <- <-]|[]]]]; reflexivity.
  - reflexivity.
Qed.

(** X3: the client of slot [j] of a segment is a member of exactly one
    network, the one of its own segment, which is in the networks map with
    the segment's range as its pool; and its environment holds the target
    URL and the interval of its own segment. *)
Theorem client_definition (ranges : list SegmentSpec) (i : nat)
        (subnet : string) (count : Z) (interval : float) (j : Z) :
  nth_error ranges i = Some (subnet, count, interval) ->
  1 <= j <= count ->
  exists svc,
    dict_get (services_of ranges) (client_name i j) = Some svc /\
    member_networks svc = [net_name i] /\
    pool_of (networks_of ranges) (net_name i) = Some subnet /\
    get svc "environment"
    = Some (PDict [ ("TARGET_URL", PStr "http://proxy:80/");
                    ("INTERVAL", PFloat interval) ]).
Proof.
  intros Hn Hj. eexists. split.
  - apply (client_lookup ranges i subnet count interval j Hn Hj).
  - split; [reflexivity |]. split; [|reflexivity].
    apply (pool_lookup ranges i subnet count interval Hn).
Qed.

Lemma client_definition_witness :
  exists svc,
    dict_get (services_of RANGES) (client_name 3 33) = Some svc /\
    member_networks svc = [net_name 3] /\
    pool_of (networks_of RANGES) (net_name 3) = Some "172.16.16.0/24"%string /\
    get svc "environment"
    = Some (PDict [ ("TARGET_URL", PStr "http://proxy:80/");
                    ("INTERVAL", PFloat 0.07%float) ]).
Proof.
  apply (client_definition RANGES 3 "172.16.16.0/24" 33 0.07%float 33);
    [reflexivity | lia].
Defined.

Lemma map_indexed_snd {A B : Type} (g : A -> B) (l : list A) :
  forall k, map (fun e : nat * A => g (snd e)) (indexed k l) = map g l.
Proof.
  induction l as [|a l IH]; intros k; [reflexivity |].
  rewrite indexed_cons. simpl. now rewrite IH.
Qed.

(** X4: the pools read back from the networks map, in key order, are the
    ranges of the table in input order, as they are written; every network
    is a bridge network. *)
Theorem pools_round_trip (ranges : list SegmentSpec) :
  map (pool_of (networks_of ranges)) (keys (networks_of ranges))
  = map (fun spec : SegmentSpec => Some (fst (fst spec))) ranges /\
  Forall (fun entry => get (snd entry) "driver" = Some (PStr "bridge"))
         (networks_of ranges).
Proof.
  split.
  - assert (Hk : keys (networks_of ranges)
                 = map (fun e : nat * SegmentSpec => net_name (fst e))
                       (indexed 0 ranges)).
    { rewrite networks_closed. unfold keys. now rewrite map_map. }
    rewrite Hk, map_map.
    rewrite <- (map_indexed_snd
                  (fun spec : SegmentSpec => Some (fst (fst spec))) ranges 0).
    apply map_ext_in. intros [i [[subnet count] interval]] He. simpl.
    apply in_indexed in He as [_ He]. rewrite Nat.sub_0_r in He.
    apply (pool_lookup ranges i subnet count interval He).
  - rewrite networks_closed. apply Forall_forall. intros entry Hin.
    apply in_map_iff in Hin as (e & <- & _). reflexivity.
Qed.

(** X7: the script does not compare ranges.  Two different segments whose
    ranges agree up to the last dot give the same slot the same address,
    under different client names and on different networks. *)
Theorem same_base_same_addresses (ranges : list SegmentSpec) (i i' : nat)
        (s s' : string) (c c' : Z) (iv iv' : float) (j : Z) :
  nth_error ranges i = Some (s, c, iv) ->
  nth_error ranges i' = Some (s', c', iv') ->
  i <> i' -> base s = base s' -> 1 <= j <= c -> j <= c' ->
  client_name i j <> client_name i' j /\
  net_name i <> net_name i' /\
  exists a, client_address (services_of ranges) i j = Some a /\
            client_address (services_of ranges) i' j = Some a.
Proof.
  intros Hn Hn' Hne Hb Hj Hj'. repeat split.
  - intros E. now apply client_name_inj in E.
  - intros E. now apply net_name_inj in E.
  - exists (ipv4_address s j). split.
    + apply (client_address_closed ranges i s c iv j Hn Hj).
    + rewrite (client_address_closed ranges i' s' c' iv' j Hn') by lia.
      unfold ipv4_address. now rewrite Hb.
Qed.

Lemma same_base_same_addresses_witness :
  let ranges := [ ("10.0.1.0/24"%string, 1, 0.1%float);
                  ("10.0.1.128/25"%string, 1, 0.1%float) ] in
  client_name 0 1 <> client_name 1 1 /\
  net_name 0 <> net_name 1 /\
  exists a, client_address (services_of ranges) 0 1 = Some a /\
            client_address (services_of ranges) 1 1 = Some a.
Proof.
  apply (same_base_same_addresses _ 0 1 "10.0.1.0/24" "10.0.1.128/25"
                                  1 1 0.1%float 0.1%float 1);
    try reflexivity; lia.
Defined.

(** X8: what the document holds for a segment depends on the segment's
    position and its own spec alone: two tables with the same entry (or
    none) at index [i] give the same client entries [client{i+1}_{j}] and
    the same network [net{i+1}]. *)
Theorem segment_independence (r1 r2 : list SegmentSpec) (i : nat) :
  nth_error r1 i = nth_error r2 i ->
  (forall j, dict_get (services_of r1) (client_name i j)
             = dict_get (services_of r2) (client_name i j)) /\
  dict_get (networks_of r1) (net_name i)
  = dict_get (networks_of r2) (net_name i).
Proof.
  intros H. split.
  - intros j. now rewrite !client_lookup_total, H.
  - now rewrite !network_lookup_total, H.
Qed.

Lemma segment_independence_witness :
  let r1 := [ ("10.0.1.0/24"%string, 2, 0.1%float) ] in
  let r2 := [ ("10.0.1.0/24"%string, 2, 0.1%float);
              ("10.0.2.0/24"%string, 5, 0.2%float) ] in
  (forall j, dict_get (services_of r1) (client_name 0 j)
             = dict_get (services_of r2) (client_name 0 j)) /\
  dict_get (networks_of r1) (net_name 0)
  = dict_get (networks_of r2) (net_name 0).
Proof.
  apply segment_independence. reflexivity.
Defined.

(** X11: the infrastructure services join every network without a fixed
    address: no network gives the proxy, the indexer or the log shipper an
    [ipv4_address]. *)
Theorem infra_unaddressed (ranges : list SegmentSpec) (net : string) :
  Forall (fun name => address_in (services_of ranges) name net = None)
         infra_names.
Proof.
  assert (Hnet : forall att,
             dict_get (net_entries (List.length ranges)) net = Some att ->
             att = PDict []).
  { intros att H. apply dict_get_Some in H. unfold net_entries in H.
    apply in_map_iff in H as (k & [= _ <-] & _). reflexivity. }
  unfold infra_names. repeat constructor; unfold address_in.
  - rewrite (infra_lookup ranges "proxy"
               (proxy_service (net_entries (List.length ranges))))
      by (simpl; auto).
    simpl. destruct (dict_get _ net) as [att|]; [|reflexivity].
    now rewrite (Hnet att eq_refl).
  - rewrite (infra_lookup ranges "cidrx"
               (cidrx_service (net_entries (List.length ranges))))
      by (simpl; auto).
    simpl. destruct (dict_get _ net) as [att|]; [|reflexivity].
    now rewrite (Hnet att eq_refl).
  - rewrite (infra_lookup ranges "filebeat"
               (filebeat_service (net_entries (List.length ranges))))
      by (simpl; auto).
    simpl. destruct (dict_get _ net) as [att|]; [|reflexivity].
    now rewrite (Hnet att eq_refl).
Qed.

Lemma client_entries_base (k : nat) (s1 s2 : SegmentSpec) :
  same_up_to_last_dot s1 s2 -> client_entries (k, s1) = client_entries (k, s2).
Proof.
  destruct s1 as [[n1 c1] iv1], s2 as [[n2 c2] iv2].
  unfold same_up_to_last_dot. simpl. intros (Hb & -> & ->).
  unfold client_entries. apply map_ext. intros j.
  unfold client_entry, ipv4_address. now rewrite Hb.
Qed.

Lemma flat_client_entries_base (r1 r2 : list SegmentSpec) :
  Forall2 same_up_to_last_dot r1 r2 ->
  forall k, flat_map client_entries (indexed k r1)
            = flat_map client_entries (indexed k r2).
Proof.
  induction 1 as [|s1 s2 r1 r2 Hs _ IH]; intros k; [reflexivity |].
  rewrite !indexed_cons. cbn [flat_map].
  now rewrite (client_entries_base k s1 s2 Hs), IH.
Qed.

(** X12: the services of the document depend on a range only through the
    text before its last dot: two tables whose entries agree in that text,
    in the host count and in the interval give the same services map. *)
Theorem services_depend_on_base (r1 r2 : list SegmentSpec) :
  Forall2 same_up_to_last_dot r1 r2 -> services_of r1 = services_of r2.
Proof.
  intros H. rewrite !services_closed, <- !indexed_0.
  rewrite (Forall2_length H).
  now rewrite (flat_client_entries_base r1 r2 H 0).
Qed.

Lemma services_depend_on_base_witness :
  services_of [ ("10.0.1.0/24"%string, 2, 0.1%float) ]
  = services_of [ ("10.0.1.128/25"%string, 2, 0.1%float) ].
Proof.
  apply services_depend_on_base.
  constructor; [|constructor]. repeat split.
Defined.

(** X13: adding segments at the end of the table keeps what the table had:
    the networks map grows at its end by the networks of the new segments,
    and the keys of the services map by their clients, the earlier keys
    keeping their names and their order. *)
Theorem append_segments (r r' : list SegmentSpec) :
  networks_of (r ++ r')
  = networks_of r
      ++ map (fun entry : nat * SegmentSpec =>
                (net_name (fst entry), network_def (fst (fst (snd entry)))))
             (indexed (List.length r) r') /\
  keys (services_of (r ++ r'))
  = keys (services_of r)
      ++ flat_map (fun entry : nat * SegmentSpec =>
                     map (client_name (fst entry))
                         (range 1 (snd (fst (snd entry)) + 1)))
                  (indexed (List.length r) r').
Proof.
  split.
  - rewrite !networks_closed, <- !indexed_0, indexed_app, map_app.
    reflexivity.
  - rewrite !service_keys, <- !indexed_0, indexed_app, flat_map_app.
    now rewrite List.app_assoc.
Qed.

End Clients.

(** ** Further properties of a run and of the addresses *)

Section Runs.

#[local] Open Scope list_scope.

(** X5: a run prints only when it returns, and then exactly one line,
    whose counts are the number of clients in the document (a count of zero
    or less counting for none) and the number of segments of the table; a
    run that raises has printed nothing. *)
Theorem summary_counts (ranges : list SegmentSpec) (w : World) :
  match generate_compose ranges w with
  | Returned w' =>
      stdout w'
      = stdout w
          ++ [("Generated docker-compose.yml with "
                 ++ str (client_total ranges)
                 ++ " clients on " ++ str (len ranges) ++ " networks.")%string]
  | Raised _ w' => stdout w' = stdout w
  end.
Proof.
  rewrite generate_compose_closed.
  destruct (can_open w OUTPUT_FILE); [|reflexivity].
  destruct (write_fault w); [reflexivity |].
  destruct (stdout_fault w); [reflexivity |].
  cbn [printed with_file stdout]. unfold summary.
  rewrite services_length, networks_length.
  replace (3 + client_total ranges - 3) with (client_total ranges) by lia.
  reflexivity.
Qed.

(** X6: a run changes no file but the output file, and the write is not
    all or nothing.  When the run returns, the output file holds the whole
    dump.  When it raises, the exception is [OSError] and the output file
    is as it was (it could not be opened), or holds the first bytes of the
    dump in place of what it held (a write raised), or holds the whole dump
    (the print raised). *)
Theorem run_frame (ranges : list SegmentSpec) (w : World) :
  match generate_compose ranges w with
  | Returned w' =>
      undisturbed w = true /\
      dict_get (files w') OUTPUT_FILE
      = Some (yaml_dump (compose ranges) false) /\
      (forall path, path <> OUTPUT_FILE ->
                    dict_get (files w') path = dict_get (files w) path)
  | Raised e w' =>
      e = OSError /\
      undisturbed w = false /\
      (forall path, path <> OUTPUT_FILE ->
                    dict_get (files w') path = dict_get (files w) path) /\
      (if can_open w OUTPUT_FILE
       then match write_fault w with
            | Some bytes =>
                dict_get (files w') OUTPUT_FILE
                = Some (yaml_dump_cut (compose ranges) false bytes)
            | None =>
                dict_get (files w') OUTPUT_FILE
                = Some (yaml_dump (compose ranges) false)
            end
       else w' = w)
  end.
Proof.
  rewrite generate_compose_closed. unfold undisturbed.
  destruct (can_open w OUTPUT_FILE); [|now repeat split].
  destruct (write_fault w) as [bytes|].
  - cbn [with_file files]. repeat split.
    + intros path Hne. now apply dict_get_set_other.
    + apply dict_get_set_same.
  - destruct (stdout_fault w); cbn [printed with_file files]; repeat split;
      try apply dict_get_set_same;
      intros path Hne; now apply dict_get_set_other.
Qed.

(** X9: [base] cuts a range at its last dot.  A range without a dot is its
    own base; any other range is its base, a dot, and a rest that has no
    dot. *)
Theorem base_splits (subnet : string) :
  if lacks "." subnet then base subnet = subnet
  else exists rest, subnet = (base subnet ++ String "." rest)%string /\
                    lacks "." rest = true.
Proof.
  unfold base, rsplit1_head.
  destruct (before_last "." subnet) as [h|] eqn:E.
  - apply before_last_Some in E as (t & -> & Ht).
    assert (Hl : lacks "." (h ++ String "." t) = false).
    { unfold lacks. rewrite all_chars_app. simpl. apply andb_false_r. }
    rewrite Hl. now exists t.
  - now rewrite (before_last_None _ _ E).
Qed.

Lemma parse_octet_big (n : Z) : 255 < n -> Cidr.parse_octet (str n) = None.
Proof.
  intros Hn. unfold Cidr.parse_octet. rewrite parse_nat_str by lia.
  destruct (Z.leb_spec n 255); [lia | reflexivity].
Qed.

Lemma quad_ends_None (l : list (option Z)) :
  match l ++ [None] with
  | [Some a; Some b; Some c; Some d] =>
      Some (((a * 256 + b) * 256 + c) * 256 + d)
  | _ => None
  end = None.
Proof.
  destruct l as [|[a|] [|[b|] [|[c|] [|[d|] [|e l]]]]]; reflexivity.
Qed.

Lemma ipv4_address_overflow (subnet : string) (j : Z) :
  224 < j -> Cidr.parse_ipv4 (ipv4_address subnet j) = None.
Proof.
  intros Hj. unfold Cidr.parse_ipv4, ipv4_address.
  change (base subnet ++ "." ++ str (31 + j))%string
    with (base subnet ++ String "." (str (31 + j)))%string.
  rewrite split_app_any, map_app.
  rewrite (split_lacks "." (str (31 + j)))
    by (apply str_lacks; [reflexivity | lia]).
  cbn [map]. rewrite parse_octet_big by lia. apply quad_ends_None.
Qed.

(** X10: the last component of an address is not bounded.  A client in a
    slot above 224 is given a text whose last component is above 255: it is
    not a dotted quad, whatever the range, and so lies in no range. *)
Theorem address_overflow (ranges : list SegmentSpec) (i : nat)
        (subnet : string) (count : Z) (interval : float) (j : Z) :
  nth_error ranges i = Some (subnet, count, interval) ->
  224 < j <= count ->
  exists a,
    client_address (services_of ranges) i j = Some a /\
    Cidr.last_component a = Some (31 + j) /\
    Cidr.parse_ipv4 a = None /\
    forall range, Cidr.in_range range a = false.
Proof.
  intros Hn Hj. exists (ipv4_address subnet j). split; [|split; [|split]].
  - apply (client_address_closed ranges i subnet count interval); [exact Hn | lia].
  - apply last_component_address. lia.
  - apply ipv4_address_overflow. lia.
  - intros range. unfold Cidr.in_range.
    rewrite ipv4_address_overflow by lia.
    now destruct (Cidr.parse_cidr range) as [[ip p]|].
Qed.

Lemma address_overflow_witness :
  exists a,
    client_address (services_of [("10.0.1.0/24"%string, 225, 0.1%float)]) 0 225
    = Some a /\
    Cidr.last_component a = Some (31 + 225) /\
    Cidr.parse_ipv4 a = None /\
    forall range, Cidr.in_range range a = false.
Proof.
  apply (address_overflow _ 0 "10.0.1.0/24" 225 0.1%float 225);
    [reflexivity | lia].
Defined.

End Runs.

(** ** The order of the keys *)

Section Order.

#[local] Open Scope list_scope.



Lemma client_total_nonneg (l : list SegmentSpec) : 0 <= client_total l.
Proof.
  unfold client_total. induction l as [|spec l IH]; simpl; lia.
Qed.




Example RANGES_positions :
  nth_error (keys (services_of RANGES)) 3 = Some "client1_1"%string /\
  nth_error (keys (services_of RANGES)) 14 = Some "client4_1"%string /\
  nth_error (keys (services_of RANGES)) 46 = Some "client4_33"%string /\
  nth_error (keys (services_of RANGES)) 47 = None.
Proof. vm_compute. repeat split; reflexivity. Qed.

End Order.
